(** * padthai: base-48 Thai / base-16 Buginese codec

    A shallow embedding of [pkg/padthai/padthai.go] and the properties of
    its [Encode] and [Decode] functions.

    Modelling conventions.
    - A [rune] (Go [int32]) and a [uint] are integers in [Z]; the
      wrap-around of every [uint], [int32] and [uint8] operation is
      written out ([wrap_uint], [wrap_int32], [wrap_u8]).
    - A [[]byte] is a [list byte] over the 256-element type [Byte.byte].
    - A Go [string] is modelled by the sequence of code points that
      [for _, r := range s] yields; [strings.Builder.WriteRune r]
      appends the code point [r] (every rune [Encode] writes is a valid
      scalar value of the Basic Multilingual Plane, see
      [Encode_runes_valid_scalar]).
    - Slice and array indices and lengths (Go [int], never negative
      here) are [nat]; indexing is stdpp's total lookup [!!!], whose
      result out of range is the zero value where Go would panic; the
      index bounds are proved separately.
    - The package-level tables are computed by a model of [init]. *)

From Stdlib Require Import ZArith Lia.
From Stdlib.Strings Require Import Byte.
From stdpp Require Import base list gmap.
From Equations Require Import Equations.

#[local] Open Scope Z_scope.

(** ** Machine integers *)

Abbreviation rune := Z (only parsing).
Abbreviation gostring := (list Z) (only parsing).

Definition wrap_uint (x : Z) : Z := x mod 2 ^ 64.
Definition wrap_int32 (x : Z) : Z := (x + 2 ^ 31) mod 2 ^ 32 - 2 ^ 31.
Definition wrap_u8 (x : Z) : Z := x mod 2 ^ 8.

(** [uint(b)] for a byte [b]. *)
Definition uint_of_byte (b : byte) : Z := Z.of_N (Byte.to_N b).

(** [byte(x)]: the conversion to [uint8] keeps the low eight bits. *)
Definition byte_of_Z (x : Z) : byte :=
  match Byte.of_N (Z.to_N (wrap_u8 x)) with
  | Some b => b
  | None => x00
  end.

#[global] Instance byte_inhabited : Inhabited byte := populate x00.

(** ** Constants *)

Definition thaiStart : rune := 0x0e01.
Definition thaiEnd : rune := 0x0e2f.
Definition thaiBaht : rune := 0x0e3f.
Definition bugineseStart : rune := 0x1a00.
Definition bugineseEnd : rune := 0x1a0f.
Definition Base : Z := 48.
Definition PadBase : Z := 16.

(** ** The tables built by [init] *)

Record tables := Tables {
  tblThai : list rune;
  tblBuginese : list rune;
  tblIndex : gmap Z nat
}.

(** [var ThaiAlphabet [Base]rune], [var BugineseAlphabet [PadBase]rune]
    and the nil map, before [init] runs. *)
Definition tables0 : tables :=
  Tables (replicate (Z.to_nat Base) 0) (replicate (Z.to_nat PadBase) 0) ∅.

(** [for r := thaiStart; r <= thaiEnd; r++ { ThaiAlphabet[idx] = r; idx++ }] *)
Equations? init_thai_loop (r : rune) (idx : nat) (arr : list rune)
  : nat * list rune by wf (Z.to_nat (thaiEnd + 1 - r)) lt :=
  init_thai_loop r idx arr with decide (r <= thaiEnd) => {
    | left _ := init_thai_loop (wrap_int32 (r + 1)) (S idx) (<[idx := r]> arr);
    | right _ := (idx, arr) }.
Proof.
  unfold wrap_int32, thaiEnd in *.
  destruct (decide (- 2 ^ 31 <= r)) as [Hr|Hr].
  - rewrite Z.mod_small by lia. lia.
  - assert (0 <= (r + 1 + 2 ^ 31) mod 2 ^ 32) by (apply Z.mod_pos_bound; lia).
    lia.
Qed.

(** [for i, r := range ThaiAlphabet { thaiIndex[r] = i }] *)
Fixpoint init_index_loop (i : nat) (arr : list rune) (m : gmap Z nat)
  : gmap Z nat :=
  match arr with
  | [] => m
  | r :: arr' => init_index_loop (S i) arr' (<[r := i]> m)
  end.

(** [for i := 0; i < PadBase; i++ { BugineseAlphabet[i] = bugineseStart + rune(i) }] *)
Equations? init_bug_loop (i : nat) (arr : list rune) : list rune
  by wf (Z.to_nat PadBase - i)%nat lt :=
  init_bug_loop i arr with decide (Z.of_nat i < PadBase) => {
    | left _ :=
        init_bug_loop (S i)
          (<[i := wrap_int32 (bugineseStart + wrap_int32 (Z.of_nat i))]> arr);
    | right _ := arr }.
Proof. unfold PadBase in *. lia. Qed.

Definition init (t : tables) : tables :=
  let '(idx, thai) := init_thai_loop thaiStart 0 (tblThai t) in
  let thai := <[idx := thaiBaht]> thai in
  let index := init_index_loop 0 thai ∅ in
  let bug := init_bug_loop 0 (tblBuginese t) in
  Tables thai bug index.

Definition ThaiAlphabet : list rune := tblThai (init tables0).
Definition BugineseAlphabet : list rune := tblBuginese (init tables0).
Definition thaiIndex : gmap Z nat := tblIndex (init tables0).

(** [isThai]: [_, ok := thaiIndex[r]; return ok]. *)
Definition isThai (r : rune) : bool :=
  match thaiIndex !! r with
  | Some _ => true
  | None => false
  end.

(** [isBuginese]: [r >= bugineseStart && r <= bugineseEnd]. *)
Definition isBuginese (r : rune) : bool :=
  (bugineseStart <=? r) && (r <=? bugineseEnd).

(** ** Encode *)

(** The pair loop of [Encode]: [for i+1 < len(data) { ...; i += 2 }].
    It returns the final [i] and the contents of the builder. *)
Equations? encode_loop (data : list byte) (i : nat) (sb : gostring)
  : nat * gostring by wf (length data - i)%nat lt :=
  encode_loop data i sb with decide (i + 1 < length data)%nat => {
    | left _ :=
        let val :=
          Z.lor (wrap_uint (Z.shiftl (uint_of_byte (data !!! i)) 8))
                (uint_of_byte (data !!! (i + 1)%nat)) in
        let d2 := val mod Base in
        let val := val / Base in
        let d1 := val mod Base in
        let val := val / Base in
        let d0 := val in
        let sb := sb ++ [ThaiAlphabet !!! Z.to_nat d0] in
        let sb := sb ++ [ThaiAlphabet !!! Z.to_nat d1] in
        let sb := sb ++ [ThaiAlphabet !!! Z.to_nat d2] in
        encode_loop data (i + 2)%nat sb;
    | right _ := (i, sb) }.
Proof. lia. Qed.

Definition Encode (data : list byte) : gostring :=
  if decide (length data = 0%nat) then []
  else
    let '(i, sb) := encode_loop data 0 [] in
    if decide (i < length data)%nat then
      let b := uint_of_byte (data !!! i) in
      let hi := Z.land (Z.shiftr b 4) 0x0f in
      let lo := Z.land b 0x0f in
      let sb := sb ++ [BugineseAlphabet !!! Z.to_nat hi] in
      let sb := sb ++ [BugineseAlphabet !!! Z.to_nat lo] in
      sb
    else sb.

(** ** Decode *)

(** The errors of [Decode], one constructor per [fmt.Errorf] call, with
    the values its format string prints. *)
Inductive DecodeError : Type :=
| InvalidLength (count : nat)
| InvalidCharacter (r : rune) (pos : nat)
| ValueOutOfRange (val : Z) (pos : nat)
| InvalidPadding.

(** [case ' ', '\n', '\r', '\t'] *)
Definition is_space (r : rune) : bool :=
  (r =? 32) || (r =? 10) || (r =? 13) || (r =? 9).

(** [for _, r := range s { switch r { ... continue; default: runes = append(runes, r) } }] *)
Fixpoint collect_runes (s : gostring) (runes : list rune) : list rune :=
  match s with
  | [] => runes
  | r :: s' =>
      if is_space r then collect_runes s' runes
      else collect_runes s' (runes ++ [r])
  end.

(** [trailingBuginese]: 0 or 2. *)
Definition trailingBuginese (runes : list rune) : nat :=
  if (bool_decide (2 <= length runes)%nat
      && isBuginese (runes !!! (length runes - 1)%nat)
      && isBuginese (runes !!! (length runes - 2)%nat))%bool
  then 2%nat else 0%nat.

(** The triplet loop of [Decode]:
    [for i := 0; i+2 < len(thaiRunes); i += 3 { ... }]. *)
Equations? decode_loop (thaiRunes : list rune) (i : nat) (out : list byte)
  : DecodeError + list byte by wf (length thaiRunes - i)%nat lt :=
  decode_loop thaiRunes i out with decide (i + 2 < length thaiRunes)%nat => {
    | left _ :=
        match thaiIndex !! (thaiRunes !!! i),
              thaiIndex !! (thaiRunes !!! (i + 1)%nat),
              thaiIndex !! (thaiRunes !!! (i + 2)%nat) with
        | Some d0, Some d1, Some d2 =>
            let val :=
              wrap_uint
                (wrap_uint
                   (wrap_uint (wrap_uint (Z.of_nat d0 * Base) * Base)
                    + wrap_uint (Z.of_nat d1 * Base))
                 + Z.of_nat d2) in
            if decide (val > 0xFFFF) then inl (ValueOutOfRange val i)
            else
              decode_loop thaiRunes (i + 3)%nat
                (out ++ [byte_of_Z (Z.shiftr val 8);
                         byte_of_Z (Z.land val 0xFF)])
        | None, _, _ => inl (InvalidCharacter (thaiRunes !!! i) i)
        | Some _, None, _ =>
            inl (InvalidCharacter (thaiRunes !!! (i + 1)%nat) (i + 1)%nat)
        | Some _, Some _, None =>
            inl (InvalidCharacter (thaiRunes !!! (i + 2)%nat) (i + 2)%nat)
        end;
    | right _ := inr out }.
Proof. lia. Qed.

(** [Decode] returns the pair [([]byte, error)]; a nil slice is [[]] and
    a nil error is [None]. *)
Definition Decode (s : gostring) : list byte * option DecodeError :=
  let runes := collect_runes s [] in
  if decide (length runes = 0%nat) then ([], None)
  else
    let tb := trailingBuginese runes in
    let thaiRunes := take (length runes - tb) runes in
    let bugRunes := drop (length runes - tb) runes in
    if decide ((length thaiRunes mod 3)%nat <> 0%nat)
    then ([], Some (InvalidLength (length thaiRunes)))
    else
      match decode_loop thaiRunes 0 [] with
      | inl e => ([], Some e)
      | inr out =>
          if decide (tb = 2%nat) then
            let hi := wrap_u8 (wrap_int32 (bugRunes !!! 0%nat - bugineseStart)) in
            let lo := wrap_u8 (wrap_int32 (bugRunes !!! 1%nat - bugineseStart)) in
            if (bool_decide (hi > 0x0f) || bool_decide (lo > 0x0f))%bool
            then ([], Some InvalidPadding)
            else (out ++ [byte_of_Z (Z.lor (wrap_u8 (Z.shiftl hi 4)) lo)], None)
          else (out, None)
      end.

(** ** Notions used in the statements and proofs *)

(** The 16-bit value of a byte pair and its base-48 digits. *)
Definition pair_value (b0 b1 : byte) : Z := uint_of_byte b0 * 256 + uint_of_byte b1.
Definition digit0 (v : Z) : Z := v / Base / Base.
Definition digit1 (v : Z) : Z := (v / Base) mod Base.
Definition digit2 (v : Z) : Z := v mod Base.

(** The three code points the loop body writes for the pair [(b0, b1)]. *)
Definition encode_pair (p : byte * byte) : gostring :=
  let v := pair_value p.1 p.2 in
  [ThaiAlphabet !!! Z.to_nat (digit0 v);
   ThaiAlphabet !!! Z.to_nat (digit1 v);
   ThaiAlphabet !!! Z.to_nat (digit2 v)].

(** The two code points written for a trailing byte. *)
Definition encode_tail (b : byte) : gostring :=
  [BugineseAlphabet !!! Z.to_nat (Z.land (Z.shiftr (uint_of_byte b) 4) 0x0f);
   BugineseAlphabet !!! Z.to_nat (Z.land (uint_of_byte b) 0x0f)].

(** A byte slice seen as its pairs followed by at most one byte. *)
Definition unpairs (ps : list (byte * byte)) : list byte :=
  ps ≫= (fun p => [p.1; p.2]).

Definition odd_bytes (tl : option byte) : list byte :=
  match tl with Some b => [b] | None => [] end.

Fixpoint to_pairs (l : list byte) : list (byte * byte) * option byte :=
  match l with
  | [] => ([], None)
  | [b] => ([], Some b)
  | a :: b :: l' => let '(ps, tl) := to_pairs l' in ((a, b) :: ps, tl)
  end.

Definition decode_runes (runes : list rune) : list byte * option DecodeError :=
  if decide (length runes = 0%nat) then ([], None)
  else
    let tb := trailingBuginese runes in
    let thaiRunes := take (length runes - tb) runes in
    let bugRunes := drop (length runes - tb) runes in
    if decide ((length thaiRunes mod 3)%nat <> 0%nat)
    then ([], Some (InvalidLength (length thaiRunes)))
    else
      match decode_loop thaiRunes 0 [] with
      | inl e => ([], Some e)
      | inr out =>
          if decide (tb = 2%nat) then
            let hi := wrap_u8 (wrap_int32 (bugRunes !!! 0%nat - bugineseStart)) in
            let lo := wrap_u8 (wrap_int32 (bugRunes !!! 1%nat - bugineseStart)) in
            if (bool_decide (hi > 0x0f) || bool_decide (lo > 0x0f))%bool
            then ([], Some InvalidPadding)
            else (out ++ [byte_of_Z (Z.lor (wrap_u8 (Z.shiftl hi 4)) lo)], None)
          else (out, None)
      end.

(** The primary group and the padding pair selected by [Decode]. *)
Definition primary_group (runes : list rune) : list rune :=
  take (length runes - trailingBuginese runes) runes.
Definition padding_pair (runes : list rune) : list rune :=
  drop (length runes - trailingBuginese runes) runes.

Definition is_loop_error (e : DecodeError) : Prop :=
  match e with
  | InvalidCharacter _ _ | ValueOutOfRange _ _ => True
  | InvalidLength _ | InvalidPadding => False
  end.

(** Steps 3 and 4 of [Decode], on the two groups. *)
Definition decode_groups (thaiRunes bugRunes : list rune) (tb : nat)
  : list byte * option DecodeError :=
  if decide ((length thaiRunes mod 3)%nat <> 0%nat)
  then ([], Some (InvalidLength (length thaiRunes)))
  else
    match decode_loop thaiRunes 0 [] with
    | inl e => ([], Some e)
    | inr out =>
        if decide (tb = 2%nat) then
          let hi := wrap_u8 (wrap_int32 (bugRunes !!! 0%nat - bugineseStart)) in
          let lo := wrap_u8 (wrap_int32 (bugRunes !!! 1%nat - bugineseStart)) in
          if (bool_decide (hi > 0x0f) || bool_decide (lo > 0x0f))%bool
          then ([], Some InvalidPadding)
          else (out ++ [byte_of_Z (Z.lor (wrap_u8 (Z.shiftl hi 4)) lo)], None)
        else (out, None)
    end.

(** The whitespace code points: space, tab, newline, carriage return. *)
Definition whitespace (r : rune) : Prop := r = 32 \/ r = 9 \/ r = 10 \/ r = 13.

(** [ws_insert t t']: [t'] is [t] with whitespace code points inserted at
    arbitrary positions. *)
Inductive ws_insert : gostring -> gostring -> Prop :=
| ws_done : ws_insert [] []
| ws_keep (r : rune) (t t' : gostring) :
    ws_insert t t' -> ws_insert (r :: t) (r :: t')
| ws_add (w : rune) (t t' : gostring) :
    whitespace w -> ws_insert t t' -> ws_insert t (w :: t').

(** ** Sanity checks on concrete inputs (the package's tests) *)

Example ThaiAlphabet_len : length ThaiAlphabet = 48%nat.
Proof. vm_compute. reflexivity. Qed.

Example test_two : Encode [x00; x01] = [0x0e01; 0x0e01; 0x0e02].
Proof. vm_compute. reflexivity. Qed.

Example test_three : Decode (Encode [x00; x01; x02]) = ([x00; x01; x02], None).
Proof. vm_compute. reflexivity. Qed.

Example test_max : Decode (Encode [xff; xff]) = ([xff; xff], None).
Proof. vm_compute. reflexivity. Qed.

Example test_invalid : Decode [88; 89; 90] = ([], Some (InvalidCharacter 88 0)).
Proof. vm_compute. reflexivity. Qed.

(** ** The alphabet tables *)

Lemma ThaiAlphabet_eq :
  ThaiAlphabet
  = ((fun k : nat => thaiStart + Z.of_nat k) <$> seq 0 47) ++ [thaiBaht].
Proof. vm_compute. reflexivity. Qed.

Lemma BugineseAlphabet_eq :
  BugineseAlphabet = (fun k : nat => bugineseStart + Z.of_nat k) <$> seq 0 16.
Proof. vm_compute. reflexivity. Qed.

Lemma thaiIndex_eq : thaiIndex = init_index_loop 0 ThaiAlphabet ∅.
Proof. vm_compute. reflexivity. Qed.

Lemma ThaiAlphabet_length : length ThaiAlphabet = 48%nat.
Proof. vm_compute. reflexivity. Qed.

Lemma BugineseAlphabet_length : length BugineseAlphabet = 16%nat.
Proof. vm_compute. reflexivity. Qed.

(** From here on the tables are used through the equations above only. *)
#[global] Opaque ThaiAlphabet BugineseAlphabet thaiIndex.

Lemma ThaiAlphabet_lookup (d : nat) :
  (d < 47)%nat -> ThaiAlphabet !! d = Some (thaiStart + Z.of_nat d).
Proof.
  intros Hd. rewrite ThaiAlphabet_eq, lookup_app_l
    by (rewrite length_fmap, length_seq; lia).
  rewrite list_lookup_fmap, lookup_seq_lt by lia. reflexivity.
Qed.

Lemma ThaiAlphabet_lookup_last : ThaiAlphabet !! 47%nat = Some thaiBaht.
Proof. vm_compute. reflexivity. Qed.

Lemma BugineseAlphabet_lookup (d : nat) :
  (d < 16)%nat -> BugineseAlphabet !! d = Some (bugineseStart + Z.of_nat d).
Proof.
  intros Hd. rewrite BugineseAlphabet_eq.
  rewrite list_lookup_fmap, lookup_seq_lt by lia. reflexivity.
Qed.

Lemma ThaiAlphabet_range (r : rune) (d : nat) :
  ThaiAlphabet !! d = Some r -> thaiStart <= r <= thaiBaht.
Proof.
  intros H. assert (Hd : (d < 48)%nat).
  { apply lookup_lt_Some in H. rewrite ThaiAlphabet_length in H. lia. }
  destruct (decide (d < 47)%nat) as [Hlt|Hge].
  - rewrite ThaiAlphabet_lookup in H by lia. inversion H; subst.
    unfold thaiStart, thaiBaht. lia.
  - assert (d = 47%nat) by lia. subst d.
    rewrite ThaiAlphabet_lookup_last in H. inversion H; subst.
    unfold thaiStart, thaiBaht. lia.
Qed.

Lemma ThaiAlphabet_NoDup : NoDup ThaiAlphabet.
Proof.
  apply NoDup_alt. intros i j r Hi Hj.
  assert (Hi' := lookup_lt_Some _ _ _ Hi).
  assert (Hj' := lookup_lt_Some _ _ _ Hj).
  rewrite ThaiAlphabet_length in Hi', Hj'.
  destruct (decide (i < 47)%nat); destruct (decide (j < 47)%nat).
  - rewrite ThaiAlphabet_lookup in Hi, Hj by lia.
    inversion Hi; inversion Hj; subst. lia.
  - assert (j = 47%nat) by lia; subst j.
    rewrite ThaiAlphabet_lookup in Hi by lia.
    rewrite ThaiAlphabet_lookup_last in Hj.
    inversion Hi; inversion Hj; subst. unfold thaiStart, thaiBaht in *. lia.
  - assert (i = 47%nat) by lia; subst i.
    rewrite ThaiAlphabet_lookup in Hj by lia.
    rewrite ThaiAlphabet_lookup_last in Hi.
    inversion Hi; inversion Hj; subst. unfold thaiStart, thaiBaht in *. lia.
  - lia.
Qed.

(** The range loop that fills [thaiIndex] stores, for each rune, the last
    position at which it occurs. *)
Lemma init_index_loop_notin (arr : list rune) (i : nat) (m : gmap Z nat) (r : rune) :
  r ∉ arr -> init_index_loop i arr m !! r = m !! r.
Proof.
  revert i m. induction arr as [|a arr IH]; intros i m Hr; simpl; [reflexivity|].
  apply not_elem_of_cons in Hr as [Hne Hr].
  rewrite IH by assumption. apply lookup_insert_ne. congruence.
Qed.

Lemma init_index_loop_lookup (arr : list rune) (i : nat) (m : gmap Z nat)
    (r : rune) (k : nat) :
  NoDup arr -> arr !! k = Some r ->
  init_index_loop i arr m !! r = Some (i + k)%nat.
Proof.
  revert i m k. induction arr as [|a arr IH]; intros i m k Hnd Hk; [discriminate|].
  apply NoDup_cons in Hnd as [Ha Hnd]. destruct k as [|k]; simpl in *.
  - inversion Hk; subst. rewrite init_index_loop_notin by assumption.
    rewrite lookup_insert_eq. f_equal. lia.
  - rewrite (IH _ _ k) by assumption. f_equal. lia.
Qed.

Lemma thaiIndex_lookup (r : rune) (d : nat) :
  thaiIndex !! r = Some d <-> ThaiAlphabet !! d = Some r.
Proof.
  rewrite thaiIndex_eq. split; intros H.
  - destruct (decide (r ∈ ThaiAlphabet)) as [Hin|Hnin].
    + apply list_elem_of_lookup in Hin as [k Hk].
      rewrite (init_index_loop_lookup _ _ _ _ k ThaiAlphabet_NoDup Hk) in H.
      inversion H; subst. exact Hk.
    + rewrite init_index_loop_notin in H by assumption. discriminate.
  - rewrite (init_index_loop_lookup _ _ _ _ d ThaiAlphabet_NoDup H). reflexivity.
Qed.

Lemma thaiIndex_None (r : rune) : thaiIndex !! r = None <-> r ∉ ThaiAlphabet.
Proof.
  split.
  - intros H Hin. apply list_elem_of_lookup in Hin as [k Hk].
    apply thaiIndex_lookup in Hk. congruence.
  - intros H. rewrite thaiIndex_eq. apply init_index_loop_notin. exact H.
Qed.

Lemma isThai_spec (r : rune) : isThai r = true <-> r ∈ ThaiAlphabet.
Proof.
  unfold isThai. destruct (thaiIndex !! r) as [d|] eqn:E.
  - apply thaiIndex_lookup in E. split; [|reflexivity].
    intros _. apply list_elem_of_lookup. eauto.
  - apply thaiIndex_None in E. split; [discriminate|contradiction].
Qed.

Lemma isBuginese_spec (r : rune) : isBuginese r = true <-> r ∈ BugineseAlphabet.
Proof.
  unfold isBuginese. rewrite andb_true_iff, Z.leb_le, Z.leb_le. split.
  - intros [H1 H2]. apply list_elem_of_lookup.
    exists (Z.to_nat (r - bugineseStart)).
    unfold bugineseStart, bugineseEnd in *.
    rewrite BugineseAlphabet_lookup by lia. f_equal. unfold bugineseStart. lia.
  - intros Hin. apply list_elem_of_lookup in Hin as [k Hk].
    assert (Hlt := lookup_lt_Some _ _ _ Hk).
    rewrite BugineseAlphabet_length in Hlt.
    rewrite BugineseAlphabet_lookup in Hk by lia. inversion Hk; subst.
    unfold bugineseStart, bugineseEnd. lia.
Qed.

Lemma alphabets_disjoint (r : rune) : isThai r = true -> isBuginese r = true -> False.
Proof.
  intros Ht Hb. apply isThai_spec in Ht. apply list_elem_of_lookup in Ht as [d Hd].
  apply ThaiAlphabet_range in Hd. unfold isBuginese in Hb.
  rewrite andb_true_iff, Z.leb_le, Z.leb_le in Hb.
  unfold thaiBaht, bugineseStart in *. lia.
Qed.

Lemma isBuginese_not_indexed (r : rune) : isBuginese r = true -> thaiIndex !! r = None.
Proof.
  intros Hb. destruct (thaiIndex !! r) eqn:E; [|reflexivity].
  exfalso. apply (alphabets_disjoint r); [|assumption].
  unfold isThai. rewrite E. reflexivity.
Qed.

(** ** Unfolding equations of the loops *)

Lemma encode_loop_eq (data : list byte) (i : nat) (sb : gostring) :
  encode_loop data i sb =
  if decide (i + 1 < length data)%nat then
    let val :=
      Z.lor (wrap_uint (Z.shiftl (uint_of_byte (data !!! i)) 8))
            (uint_of_byte (data !!! (i + 1)%nat)) in
    let d2 := val mod Base in
    let val := val / Base in
    let d1 := val mod Base in
    let val := val / Base in
    let d0 := val in
    encode_loop data (i + 2)%nat
      (((sb ++ [ThaiAlphabet !!! Z.to_nat d0])
           ++ [ThaiAlphabet !!! Z.to_nat d1])
           ++ [ThaiAlphabet !!! Z.to_nat d2])
  else (i, sb).
Proof.
  etransitivity; [apply encode_loop_equation_1|].
  destruct (decide (i + 1 < length data)%nat); reflexivity.
Qed.

Lemma decode_loop_eq (thaiRunes : list rune) (i : nat) (out : list byte) :
  decode_loop thaiRunes i out =
  if decide (i + 2 < length thaiRunes)%nat then
    match thaiIndex !! (thaiRunes !!! i),
          thaiIndex !! (thaiRunes !!! (i + 1)%nat),
          thaiIndex !! (thaiRunes !!! (i + 2)%nat) with
    | Some d0, Some d1, Some d2 =>
        let val :=
          wrap_uint
            (wrap_uint
               (wrap_uint (wrap_uint (Z.of_nat d0 * Base) * Base)
                + wrap_uint (Z.of_nat d1 * Base))
             + Z.of_nat d2) in
        if decide (val > 0xFFFF) then inl (ValueOutOfRange val i)
        else
          decode_loop thaiRunes (i + 3)%nat
            (out ++ [byte_of_Z (Z.shiftr val 8); byte_of_Z (Z.land val 0xFF)])
    | None, _, _ => inl (InvalidCharacter (thaiRunes !!! i) i)
    | Some _, None, _ =>
        inl (InvalidCharacter (thaiRunes !!! (i + 1)%nat) (i + 1)%nat)
    | Some _, Some _, None =>
        inl (InvalidCharacter (thaiRunes !!! (i + 2)%nat) (i + 2)%nat)
    end
  else inr out.
Proof.
  etransitivity; [apply decode_loop_equation_1|].
  destruct (decide (i + 2 < length thaiRunes)%nat); reflexivity.
Qed.

(** ** Machine arithmetic *)

Lemma uint_of_byte_range (b : byte) : 0 <= uint_of_byte b < 256.
Proof.
  unfold uint_of_byte. pose proof (Byte.to_N_bounded b). lia.
Qed.

Lemma byte_of_uint (b : byte) : byte_of_Z (uint_of_byte b) = b.
Proof.
  unfold byte_of_Z, wrap_u8. pose proof (uint_of_byte_range b) as Hb.
  rewrite Z.mod_small by (change (2 ^ 8) with 256; lia).
  unfold uint_of_byte. rewrite N2Z.id, Byte.of_to_N. reflexivity.
Qed.

Lemma uint_of_byte_of_Z (x : Z) : uint_of_byte (byte_of_Z x) = wrap_u8 x.
Proof.
  unfold byte_of_Z. assert (Hx : 0 <= wrap_u8 x < 256).
  { unfold wrap_u8. apply Z.mod_pos_bound. reflexivity. }
  destruct (Byte.of_N (Z.to_N (wrap_u8 x))) as [b|] eqn:E.
  - apply Byte.to_of_N in E. unfold uint_of_byte. rewrite E. lia.
  - apply Byte.of_N_None_iff in E. lia.
Qed.

Lemma uint_of_byte_inj (a b : byte) : uint_of_byte a = uint_of_byte b -> a = b.
Proof.
  intros H. rewrite <- (byte_of_uint a), <- (byte_of_uint b), H. reflexivity.
Qed.

Lemma wrap_uint_small (x : Z) : 0 <= x < 2 ^ 64 -> wrap_uint x = x.
Proof. intros H. unfold wrap_uint. apply Z.mod_small. exact H. Qed.

Lemma wrap_int32_small (x : Z) : - 2 ^ 31 <= x < 2 ^ 31 -> wrap_int32 x = x.
Proof. intros H. unfold wrap_int32. rewrite Z.mod_small; lia. Qed.

Lemma wrap_u8_small (x : Z) : 0 <= x < 256 -> wrap_u8 x = x.
Proof. intros H. unfold wrap_u8. apply Z.mod_small. exact H. Qed.

Lemma testbit_above (c k n : Z) :
  0 <= c < 2 ^ k -> 0 <= k <= n -> Z.testbit c n = false.
Proof.
  intros Hc Hn. rewrite <- (Z.mod_small c (2 ^ k)) by lia.
  apply Z.mod_pow2_bits_high. lia.
Qed.

(** [a<<k | c] is [a * 2^k + c] when [c] fits in [k] bits. *)
Lemma lor_shiftl_add (a c k : Z) :
  0 <= k -> 0 <= c < 2 ^ k -> Z.lor (Z.shiftl a k) c = a * 2 ^ k + c.
Proof.
  intros Hk Hc. rewrite Z.shiftl_mul_pow2 by assumption.
  assert (Hdisj : Z.land (a * 2 ^ k) c = 0).
  { apply Z.bits_inj'; intros n Hn. rewrite Z.land_spec, Z.bits_0.
    destruct (Z.lt_ge_cases n k) as [Hlt|Hge].
    - rewrite Z.mul_pow2_bits_low by assumption. reflexivity.
    - rewrite (testbit_above c k n) by lia. apply andb_false_r. }
  rewrite <- Z.lxor_lor by exact Hdisj.
  symmetry. apply Z.add_nocarry_lxor. exact Hdisj.
Qed.

Lemma big_endian_pair (b0 b1 : byte) :
  Z.lor (wrap_uint (Z.shiftl (uint_of_byte b0) 8)) (uint_of_byte b1)
  = uint_of_byte b0 * 256 + uint_of_byte b1.
Proof.
  pose proof (uint_of_byte_range b0). pose proof (uint_of_byte_range b1).
  rewrite wrap_uint_small.
  - rewrite lor_shiftl_add; [reflexivity|lia|change (2 ^ 8) with 256; lia].
  - rewrite Z.shiftl_mul_pow2 by lia. change (2 ^ 8) with 256.
    change (2 ^ 64) with 18446744073709551616. lia.
Qed.

(** ** What [Encode] writes *)

Lemma list_ind_pairs {A} (P : list A -> Prop) :
  P [] -> (forall a, P [a]) -> (forall a b l, P l -> P (a :: b :: l)) ->
  forall l, P l.
Proof.
  intros H0 H1 H2 l. assert (H : P l /\ forall a, P (a :: l)).
  { induction l as [|x l [IH1 IH2]]; split; auto. }
  apply H.
Qed.

Lemma to_pairs_spec (l : list byte) :
  l = unpairs (to_pairs l).1 ++ odd_bytes (to_pairs l).2.
Proof.
  induction l as [| b | a b l IH] using list_ind_pairs; try reflexivity.
  simpl. destruct (to_pairs l) as [ps tl]. simpl in *. congruence.
Qed.

Lemma unpairs_cons (p : byte * byte) (ps : list (byte * byte)) :
  unpairs (p :: ps) = p.1 :: p.2 :: unpairs ps.
Proof. reflexivity. Qed.

Lemma length_unpairs (ps : list (byte * byte)) :
  length (unpairs ps) = (2 * length ps)%nat.
Proof.
  induction ps as [|p ps IH]; [reflexivity|].
  rewrite unpairs_cons. simpl length. lia.
Qed.

Lemma length_odd_bytes (tl : option byte) : (length (odd_bytes tl) <= 1)%nat.
Proof. destruct tl; simpl; lia. Qed.

Lemma encode_loop_pairs (ps : list (byte * byte)) (tl : option byte) :
  forall (pre : list byte) (sb : gostring),
  encode_loop (pre ++ unpairs ps ++ odd_bytes tl) (length pre) sb
  = ((length pre + 2 * length ps)%nat, sb ++ (ps ≫= encode_pair)).
Proof.
  induction ps as [|[a b] ps IH]; intros pre sb; rewrite encode_loop_eq.
  - pose proof (length_odd_bytes tl). simpl. rewrite length_app.
    rewrite decide_False by lia. rewrite app_nil_r. f_equal. lia.
  - rewrite unpairs_cons. simpl fst. simpl snd.
    rewrite decide_True by (rewrite length_app; simpl; lia).
    cbv zeta.
    assert (Ha : (pre ++ (a :: b :: unpairs ps) ++ odd_bytes tl) !!! length pre = a).
    { apply list_lookup_total_correct. rewrite lookup_app_r by lia.
      rewrite Nat.sub_diag. reflexivity. }
    assert (Hb : (pre ++ (a :: b :: unpairs ps) ++ odd_bytes tl)
                   !!! (length pre + 1)%nat = b).
    { apply list_lookup_total_correct. rewrite lookup_app_r by lia.
      replace (length pre + 1 - length pre)%nat with 1%nat by lia. reflexivity. }
    rewrite Ha, Hb, big_endian_pair.
    replace (pre ++ (a :: b :: unpairs ps) ++ odd_bytes tl)
      with ((pre ++ [a; b]) ++ unpairs ps ++ odd_bytes tl)
      by (rewrite <- app_assoc; reflexivity).
    replace (length pre + 2)%nat with (length (pre ++ [a; b]))
      by (rewrite length_app; reflexivity).
    rewrite IH. rewrite length_app. simpl length. f_equal; [lia|].
    rewrite <- !app_assoc. reflexivity.
Qed.

(** [Encode] on a slice given by its pairs and its optional last byte. *)
Lemma Encode_pairs (ps : list (byte * byte)) (tl : option byte) :
  Encode (unpairs ps ++ odd_bytes tl)
  = (ps ≫= encode_pair) ++ from_option encode_tail [] tl.
Proof.
  unfold Encode. destruct (decide _) as [Hlen|Hlen].
  - rewrite length_app, length_unpairs in Hlen.
    destruct ps; [|simpl in Hlen; lia]. destruct tl; [simpl in Hlen; lia|].
    reflexivity.
  - pose proof (encode_loop_pairs ps tl [] []) as Hloop.
    simpl length in Hloop. rewrite !app_nil_l in Hloop.
    rewrite Hloop. rewrite Nat.add_0_l, length_app, length_unpairs.
    destruct tl as [b|]; simpl from_option; simpl odd_bytes.
    + rewrite decide_True by (simpl; lia).
      assert (Hb : (unpairs ps ++ [b]) !!! (2 * length ps)%nat = b).
      { apply list_lookup_total_correct.
        rewrite lookup_app_r by (rewrite length_unpairs; lia).
        rewrite length_unpairs, Nat.sub_diag. reflexivity. }
      rewrite Hb. rewrite <- app_assoc. reflexivity.
    + rewrite decide_False by (simpl; lia). rewrite app_nil_r. reflexivity.
Qed.

Lemma Encode_to_pairs (data : list byte) :
  Encode data
  = ((to_pairs data).1 ≫= encode_pair) ++ from_option encode_tail [] (to_pairs data).2.
Proof. rewrite (to_pairs_spec data) at 1. apply Encode_pairs. Qed.

(** ** Digits and nibbles *)

Lemma pair_value_range (b0 b1 : byte) : 0 <= pair_value b0 b1 <= 65535.
Proof.
  unfold pair_value.
  pose proof (uint_of_byte_range b0). pose proof (uint_of_byte_range b1). lia.
Qed.

Lemma digits_range (v : Z) :
  0 <= v < Base * Base * Base ->
  0 <= digit0 v < Base /\ 0 <= digit1 v < Base /\ 0 <= digit2 v < Base.
Proof.
  unfold digit0, digit1, digit2, Base. intros Hv.
  pose proof (Z.mod_pos_bound v 48 eq_refl).
  pose proof (Z.mod_pos_bound (v / 48) 48 eq_refl).
  assert (0 <= v / 48 < 48 * 48)
    by (split; [apply Z.div_pos; lia|apply Z.div_lt_upper_bound; lia]).
  assert (0 <= v / 48 / 48 < 48)
    by (split; [apply Z.div_pos; lia|apply Z.div_lt_upper_bound; lia]).
  lia.
Qed.

Lemma digits_value (v : Z) :
  v = digit0 v * Base * Base + digit1 v * Base + digit2 v.
Proof.
  unfold digit0, digit1, digit2, Base.
  pose proof (Z.div_mod v 48). pose proof (Z.div_mod (v / 48) 48). lia.
Qed.

(** Base-48 digits are unique. *)
Lemma digits_unique (d0 d1 d2 : Z) :
  0 <= d0 -> 0 <= d1 < Base -> 0 <= d2 < Base ->
  let v := d0 * Base * Base + d1 * Base + d2 in
  digit0 v = d0 /\ digit1 v = d1 /\ digit2 v = d2.
Proof.
  unfold digit0, digit1, digit2, Base. cbv zeta. intros H0 H1 H2.
  assert (Hq : (d0 * 48 * 48 + d1 * 48 + d2) / 48 = d0 * 48 + d1)
    by (symmetry; apply Z.div_unique with d2; lia).
  rewrite Hq. repeat split.
  - symmetry; apply Z.div_unique with d1; lia.
  - symmetry; apply Z.mod_unique with d0; lia.
  - symmetry; apply Z.mod_unique with (d0 * 48 + d1); lia.
Qed.

Lemma ThaiAlphabet_total (d : Z) :
  0 <= d < Base -> ThaiAlphabet !! Z.to_nat d = Some (ThaiAlphabet !!! Z.to_nat d).
Proof.
  intros Hd. apply list_lookup_lookup_total_lt.
  rewrite ThaiAlphabet_length. unfold Base in Hd. lia.
Qed.

Lemma thaiIndex_ThaiAlphabet (d : Z) :
  0 <= d < Base -> thaiIndex !! (ThaiAlphabet !!! Z.to_nat d) = Some (Z.to_nat d).
Proof. intros Hd. apply thaiIndex_lookup, ThaiAlphabet_total, Hd. Qed.

Lemma isThai_ThaiAlphabet (d : Z) :
  0 <= d < Base -> isThai (ThaiAlphabet !!! Z.to_nat d) = true.
Proof. intros Hd. unfold isThai. rewrite thaiIndex_ThaiAlphabet by exact Hd. reflexivity. Qed.

Lemma nibbles_range (b : byte) :
  0 <= Z.shiftr (uint_of_byte b) 4 < 16 /\ 0 <= Z.land (uint_of_byte b) 0x0f < 16.
Proof.
  pose proof (uint_of_byte_range b) as Hb.
  rewrite Z.shiftr_div_pow2 by lia. change (2 ^ 4) with 16.
  change 0x0f with (Z.ones 4). rewrite Z.land_ones by lia. change (2 ^ 4) with 16.
  pose proof (Z.mod_pos_bound (uint_of_byte b) 16 eq_refl).
  split; [|lia]. split; [apply Z.div_pos; lia|apply Z.div_lt_upper_bound; lia].
Qed.

Lemma nibbles_value (b : byte) :
  uint_of_byte b = Z.shiftr (uint_of_byte b) 4 * 16 + Z.land (uint_of_byte b) 0x0f.
Proof.
  rewrite Z.shiftr_div_pow2 by lia. change (2 ^ 4) with 16.
  change 0x0f with (Z.ones 4). rewrite Z.land_ones by lia. change (2 ^ 4) with 16.
  pose proof (Z.div_mod (uint_of_byte b) 16). lia.
Qed.

Lemma land_small (x : Z) (k : Z) :
  0 <= k -> 0 <= x < 2 ^ k -> Z.land x (Z.ones k) = x.
Proof. intros Hk Hx. rewrite Z.land_ones by exact Hk. apply Z.mod_small, Hx. Qed.

(** The mask in [(b >> 4) & 0x0f] does nothing on a byte. *)
Lemma high_nibble_mask (b : byte) :
  Z.land (Z.shiftr (uint_of_byte b) 4) 0x0f = Z.shiftr (uint_of_byte b) 4.
Proof.
  change 0x0f with (Z.ones 4). apply land_small; [lia|].
  change (2 ^ 4) with 16. apply nibbles_range.
Qed.

Lemma BugineseAlphabet_total (d : Z) :
  0 <= d < PadBase -> BugineseAlphabet !!! Z.to_nat d = bugineseStart + d.
Proof.
  intros Hd. unfold PadBase in Hd. apply list_lookup_total_correct.
  rewrite BugineseAlphabet_lookup by lia. f_equal. lia.
Qed.

Lemma isBuginese_offset (d : Z) :
  0 <= d < PadBase -> isBuginese (bugineseStart + d) = true.
Proof.
  unfold PadBase, isBuginese, bugineseStart, bugineseEnd. intros Hd.
  apply andb_true_iff. rewrite !Z.leb_le. lia.
Qed.

Lemma encode_tail_eq (b : byte) :
  encode_tail b
  = [bugineseStart + Z.shiftr (uint_of_byte b) 4;
     bugineseStart + Z.land (uint_of_byte b) 0x0f].
Proof.
  unfold encode_tail. rewrite high_nibble_mask.
  rewrite !BugineseAlphabet_total by (unfold PadBase; apply nibbles_range).
  reflexivity.
Qed.

Lemma pair_digits_range (p : byte * byte) :
  let v := pair_value p.1 p.2 in
  0 <= digit0 v < Base /\ 0 <= digit1 v < Base /\ 0 <= digit2 v < Base.
Proof.
  intros v. apply digits_range. pose proof (pair_value_range p.1 p.2).
  subst v. unfold Base. lia.
Qed.

Lemma length_encode_pairs (ps : list (byte * byte)) :
  length (ps ≫= encode_pair) = (3 * length ps)%nat.
Proof.
  induction ps as [|p ps IH]; [reflexivity|].
  change ((p :: ps) ≫= encode_pair) with (encode_pair p ++ (ps ≫= encode_pair)).
  rewrite length_app, IH. simpl. lia.
Qed.

Lemma encode_pairs_isThai (ps : list (byte * byte)) :
  Forall (fun r => isThai r = true) (ps ≫= encode_pair).
Proof.
  induction ps as [|p ps IH]; [constructor|].
  change ((p :: ps) ≫= encode_pair) with (encode_pair p ++ (ps ≫= encode_pair)).
  apply Forall_app. split; [|exact IH].
  destruct (pair_digits_range p) as (H0 & H1 & H2).
  unfold encode_pair. repeat constructor; apply isThai_ThaiAlphabet; assumption.
Qed.

(** ** Whitespace filtering *)

Lemma collect_runes_acc (s : gostring) (runes : list rune) :
  collect_runes s runes = runes ++ collect_runes s [].
Proof.
  revert runes. induction s as [|r s IH]; intros runes; simpl.
  - rewrite app_nil_r. reflexivity.
  - destruct (is_space r); [apply IH|].
    rewrite IH, (IH [r]), <- app_assoc. reflexivity.
Qed.

Lemma collect_runes_cons (r : rune) (s : gostring) :
  collect_runes (r :: s) []
  = if is_space r then collect_runes s [] else r :: collect_runes s [].
Proof.
  simpl. destruct (is_space r); [reflexivity|]. apply collect_runes_acc.
Qed.

Lemma collect_runes_app (s1 s2 : gostring) :
  collect_runes (s1 ++ s2) [] = collect_runes s1 [] ++ collect_runes s2 [].
Proof.
  induction s1 as [|r s1 IH]; [reflexivity|].
  rewrite <- app_comm_cons, !collect_runes_cons, IH.
  destruct (is_space r); reflexivity.
Qed.

Lemma collect_runes_spaces (s : gostring) :
  Forall (fun r => is_space r = true) s -> collect_runes s [] = [].
Proof.
  induction 1 as [|r s Hr _ IH]; [reflexivity|].
  rewrite collect_runes_cons, Hr. exact IH.
Qed.

Lemma collect_runes_id (s : gostring) :
  Forall (fun r => is_space r = false) s -> collect_runes s [] = s.
Proof.
  induction 1 as [|r s Hr _ IH]; [reflexivity|].
  rewrite collect_runes_cons, Hr, IH. reflexivity.
Qed.


Lemma is_space_below (r : rune) : 32 < r -> is_space r = false.
Proof.
  intros Hr. unfold is_space. rewrite !orb_false_iff, !Z.eqb_neq. lia.
Qed.

Lemma isThai_not_space (r : rune) : isThai r = true -> is_space r = false.
Proof.
  intros H. apply isThai_spec, list_elem_of_lookup in H as [d Hd].
  apply ThaiAlphabet_range in Hd. apply is_space_below.
  unfold thaiStart in Hd. lia.
Qed.

Lemma isBuginese_not_space (r : rune) : isBuginese r = true -> is_space r = false.
Proof.
  unfold isBuginese. rewrite andb_true_iff, !Z.leb_le. intros [H _].
  apply is_space_below. unfold bugineseStart in H. lia.
Qed.

(** ** The body of [Decode] after filtering *)

Lemma Decode_eq (s : gostring) : Decode s = decode_runes (collect_runes s []).
Proof. reflexivity. Qed.

Lemma trailingBuginese_short (runes : list rune) :
  (length runes < 2)%nat -> trailingBuginese runes = 0%nat.
Proof.
  intros H. unfold trailingBuginese.
  rewrite bool_decide_eq_false_2 by lia. reflexivity.
Qed.

Lemma trailingBuginese_snoc2 (pre : list rune) (p q : rune) :
  trailingBuginese (pre ++ [p; q])
  = if (isBuginese p && isBuginese q)%bool then 2%nat else 0%nat.
Proof.
  unfold trailingBuginese. rewrite length_app. simpl length.
  rewrite bool_decide_eq_true_2 by lia.
  assert (Hq : (pre ++ [p; q]) !!! (length pre + 2 - 1)%nat = q).
  { apply list_lookup_total_correct. rewrite lookup_app_r by lia.
    replace (length pre + 2 - 1 - length pre)%nat with 1%nat by lia. reflexivity. }
  assert (Hp : (pre ++ [p; q]) !!! (length pre + 2 - 2)%nat = p).
  { apply list_lookup_total_correct. rewrite lookup_app_r by lia.
    replace (length pre + 2 - 2 - length pre)%nat with 0%nat by lia. reflexivity. }
  rewrite Hq, Hp. destruct (isBuginese p), (isBuginese q); reflexivity.
Qed.

Lemma list_snoc2 {A} (l : list A) :
  (2 <= length l)%nat -> exists pre p q, l = pre ++ [p; q].
Proof.
  intros H. destruct l as [|x l] using rev_ind; [simpl in H; lia|].
  destruct l as [|y l _] using rev_ind.
  - simpl in H; lia.
  - exists l, y, x. rewrite <- app_assoc. reflexivity.
Qed.

Lemma thaiIndex_bound (r : rune) (d : nat) : thaiIndex !! r = Some d -> (d < 48)%nat.
Proof.
  intros H. apply thaiIndex_lookup, lookup_lt_Some in H.
  rewrite ThaiAlphabet_length in H. exact H.
Qed.

(** The [uint] arithmetic of the triplet value never wraps. *)
Lemma triplet_value_nowrap (d0 d1 d2 : nat) :
  (d0 < 48)%nat -> (d1 < 48)%nat -> (d2 < 48)%nat ->
  wrap_uint
    (wrap_uint
       (wrap_uint (wrap_uint (Z.of_nat d0 * Base) * Base)
        + wrap_uint (Z.of_nat d1 * Base))
     + Z.of_nat d2)
  = Z.of_nat d0 * Base * Base + Z.of_nat d1 * Base + Z.of_nat d2.
Proof.
  intros H0 H1 H2. unfold Base.
  assert (Hp : 2 ^ 64 = 18446744073709551616) by reflexivity.
  rewrite (wrap_uint_small (Z.of_nat d0 * 48)) by lia.
  rewrite (wrap_uint_small (Z.of_nat d0 * 48 * 48)) by lia.
  rewrite (wrap_uint_small (Z.of_nat d1 * 48)) by lia.
  rewrite (wrap_uint_small (Z.of_nat d0 * 48 * 48 + Z.of_nat d1 * 48)) by lia.
  apply wrap_uint_small. lia.
Qed.

(** One iteration of the triplet loop on three Primary code points. *)
Lemma decode_loop_step (thaiRunes : list rune) (i : nat) (out : list byte)
    (d0 d1 d2 : nat) :
  (i + 2 < length thaiRunes)%nat ->
  thaiIndex !! (thaiRunes !!! i) = Some d0 ->
  thaiIndex !! (thaiRunes !!! (i + 1)%nat) = Some d1 ->
  thaiIndex !! (thaiRunes !!! (i + 2)%nat) = Some d2 ->
  decode_loop thaiRunes i out
  = let v := Z.of_nat d0 * Base * Base + Z.of_nat d1 * Base + Z.of_nat d2 in
    if decide (v > 0xFFFF) then inl (ValueOutOfRange v i)
    else decode_loop thaiRunes (i + 3)%nat
           (out ++ [byte_of_Z (Z.shiftr v 8); byte_of_Z (Z.land v 0xFF)]).
Proof.
  intros Hi E0 E1 E2. rewrite decode_loop_eq, decide_True by exact Hi.
  rewrite E0, E1, E2. cbv zeta.
  rewrite triplet_value_nowrap by (eapply thaiIndex_bound; eassumption).
  reflexivity.
Qed.

(** ** Decoding what [Encode] wrote *)

Lemma pair_bytes (b0 b1 : byte) :
  byte_of_Z (Z.shiftr (pair_value b0 b1) 8) = b0
  /\ byte_of_Z (Z.land (pair_value b0 b1) 0xFF) = b1.
Proof.
  unfold pair_value.
  pose proof (uint_of_byte_range b0) as H0. pose proof (uint_of_byte_range b1) as H1.
  rewrite Z.shiftr_div_pow2 by lia. change 0xFF with (Z.ones 8).
  rewrite Z.land_ones by lia. change (2 ^ 8) with 256. split.
  - replace ((uint_of_byte b0 * 256 + uint_of_byte b1) / 256) with (uint_of_byte b0).
    + apply byte_of_uint.
    + apply Z.div_unique with (uint_of_byte b1); lia.
  - replace ((uint_of_byte b0 * 256 + uint_of_byte b1) mod 256) with (uint_of_byte b1).
    + apply byte_of_uint.
    + apply Z.mod_unique with (uint_of_byte b0); lia.
Qed.

Lemma lookup_total_app_at {A} `{Inhabited A} (pre l : list A) (k : nat) (x : A) :
  l !! k = Some x -> (pre ++ l) !!! (length pre + k)%nat = x.
Proof.
  intros Hk. apply list_lookup_total_correct.
  rewrite lookup_app_r by lia.
  replace (length pre + k - length pre)%nat with k by lia. exact Hk.
Qed.

Lemma decode_loop_encoded (ps : list (byte * byte)) :
  forall (pre : list rune) (out : list byte),
  decode_loop (pre ++ (ps ≫= encode_pair)) (length pre) out
  = inr (out ++ unpairs ps).
Proof.
  induction ps as [|[b0 b1] ps IH]; intros pre out.
  - rewrite decode_loop_eq, decide_False by (simpl; rewrite app_nil_r; lia).
    rewrite app_nil_r. reflexivity.
  - change (((b0, b1) :: ps) ≫= encode_pair)
      with (encode_pair (b0, b1) ++ (ps ≫= encode_pair)).
    destruct (pair_digits_range (b0, b1)) as (H0 & H1 & H2). simpl fst in *. simpl snd in *.
    set (v := pair_value b0 b1) in *.
    assert (Hlen : (length pre + 2
                    < length (pre ++ encode_pair (b0, b1) ++ (ps ≫= encode_pair)))%nat).
    { rewrite !length_app. simpl. lia. }
    assert (E0 : (pre ++ encode_pair (b0, b1) ++ (ps ≫= encode_pair)) !!! length pre
                 = ThaiAlphabet !!! Z.to_nat (digit0 v)).
    { pose proof (lookup_total_app_at pre
                    (encode_pair (b0, b1) ++ (ps ≫= encode_pair)) 0 _ eq_refl) as E.
      rewrite Nat.add_0_r in E. exact E. }
    assert (E1 : (pre ++ encode_pair (b0, b1) ++ (ps ≫= encode_pair))
                   !!! (length pre + 1)%nat
                 = ThaiAlphabet !!! Z.to_nat (digit1 v)).
    { apply lookup_total_app_at. reflexivity. }
    assert (E2 : (pre ++ encode_pair (b0, b1) ++ (ps ≫= encode_pair))
                   !!! (length pre + 2)%nat
                 = ThaiAlphabet !!! Z.to_nat (digit2 v)).
    { apply lookup_total_app_at. reflexivity. }
    rewrite (decode_loop_step _ _ _ (Z.to_nat (digit0 v)) (Z.to_nat (digit1 v))
               (Z.to_nat (digit2 v)) Hlen).
    2: exact (eq_trans (f_equal (fun r : Z => thaiIndex !! r) E0)
                       (thaiIndex_ThaiAlphabet _ H0)).
    2: exact (eq_trans (f_equal (fun r : Z => thaiIndex !! r) E1)
                       (thaiIndex_ThaiAlphabet _ H1)).
    2: exact (eq_trans (f_equal (fun r : Z => thaiIndex !! r) E2)
                       (thaiIndex_ThaiAlphabet _ H2)).
    cbv zeta. rewrite !Z2Nat.id by lia. rewrite <- digits_value.
    pose proof (pair_value_range b0 b1) as Hv. fold v in Hv.
    rewrite decide_False by lia.
    destruct (pair_bytes b0 b1) as [Hb0 Hb1]. fold v in Hb0, Hb1. rewrite Hb0, Hb1.
    replace (pre ++ encode_pair (b0, b1) ++ (ps ≫= encode_pair))
      with ((pre ++ encode_pair (b0, b1)) ++ (ps ≫= encode_pair))
      by (rewrite <- app_assoc; reflexivity).
    replace (length pre + 3)%nat with (length (pre ++ encode_pair (b0, b1)))
      by (rewrite length_app; reflexivity).
    rewrite IH, unpairs_cons, <- app_assoc. reflexivity.
Qed.

Lemma nibble_byte (b : byte) :
  let hi := Z.shiftr (uint_of_byte b) 4 in
  let lo := Z.land (uint_of_byte b) 0x0f in
  byte_of_Z (Z.lor (wrap_u8 (Z.shiftl hi 4)) lo) = b.
Proof.
  cbv zeta. destruct (nibbles_range b) as [Hhi Hlo].
  pose proof (nibbles_value b) as Hv.
  rewrite wrap_u8_small.
  - rewrite lor_shiftl_add by (change (2 ^ 4) with 16; lia).
    change (2 ^ 4) with 16. rewrite <- Hv. apply byte_of_uint.
  - rewrite Z.shiftl_mul_pow2 by lia. change (2 ^ 4) with 16. lia.
Qed.

(** A rune of the padding range minus [bugineseStart], seen as a [uint8]. *)
Lemma padding_nibble (r : rune) :
  isBuginese r = true ->
  wrap_u8 (wrap_int32 (r - bugineseStart)) = r - bugineseStart
  /\ 0 <= r - bugineseStart <= 15.
Proof.
  unfold isBuginese, bugineseStart, bugineseEnd.
  rewrite andb_true_iff, !Z.leb_le. intros [H1 H2].
  rewrite wrap_int32_small by lia. rewrite wrap_u8_small by lia. lia.
Qed.

(** ** The errors of the triplet loop *)

Lemma decode_loop_error_kind (thaiRunes : list rune) :
  forall (n i : nat) (out : list byte) (e : DecodeError),
  (length thaiRunes - i <= n)%nat ->
  decode_loop thaiRunes i out = inl e -> is_loop_error e.
Proof.
  induction n as [|n IH]; intros i out e Hn; rewrite decode_loop_eq.
  - rewrite decide_False by lia. discriminate.
  - destruct (decide (i + 2 < length thaiRunes)%nat) as [Hi|Hi]; [|discriminate].
    destruct (thaiIndex !! (thaiRunes !!! i)) as [d0|];
      [|intros [= <-]; exact I].
    destruct (thaiIndex !! (thaiRunes !!! (i + 1)%nat)) as [d1|];
      [|intros [= <-]; exact I].
    destruct (thaiIndex !! (thaiRunes !!! (i + 2)%nat)) as [d2|];
      [|intros [= <-]; exact I].
    cbv zeta. destruct (decide _) as [Hv|Hv]; [intros [= <-]; exact I|].
    apply IH. lia.
Qed.

(** A primary group whose length is a positive multiple of 3 and whose
    last code point is not in [thaiIndex] is rejected by the loop. *)
Lemma decode_loop_bad_last (thaiRunes : list rune) :
  (length thaiRunes mod 3 = 0)%nat ->
  thaiIndex !! (thaiRunes !!! (length thaiRunes - 1)%nat) = None ->
  forall (n i : nat) (out : list byte),
  (length thaiRunes - i <= n)%nat -> (i mod 3 = 0)%nat ->
  (i < length thaiRunes)%nat ->
  exists e, decode_loop thaiRunes i out = inl e.
Proof.
  intros Hlen Hlast. induction n as [|n IH]; intros i out Hn Hi3 Hi; [lia|].
  assert (Hi2 : (i + 3 <= length thaiRunes)%nat).
  { apply Nat.Div0.mod_divides in Hlen as [a Ha].
    apply Nat.Div0.mod_divides in Hi3 as [b Hb]. lia. }
  rewrite decode_loop_eq, decide_True by lia.
  destruct (thaiIndex !! (thaiRunes !!! i)) as [d0|]; [|eauto].
  destruct (thaiIndex !! (thaiRunes !!! (i + 1)%nat)) as [d1|]; [|eauto].
  destruct (thaiIndex !! (thaiRunes !!! (i + 2)%nat)) as [d2|] eqn:E2; [|eauto].
  cbv zeta. destruct (decide _) as [Hv|Hv]; [eauto|].
  destruct (decide (i + 3 = length thaiRunes)%nat) as [Heq|Hne].
  - replace (length thaiRunes - 1)%nat with (i + 2)%nat in Hlast by lia. congruence.
  - apply IH; [lia| |lia].
    rewrite <- Nat.Div0.add_mod_idemp_l, Hi3. reflexivity.
Qed.

(** When the loop succeeds, it has appended two bytes per triplet. *)
Lemma decode_loop_length (thaiRunes : list rune) :
  forall (n i : nat) (out res : list byte),
  (length thaiRunes - i <= n)%nat ->
  decode_loop thaiRunes i out = inr res ->
  exists bs, res = out ++ bs
    /\ length bs = (2 * ((length thaiRunes - i) / 3))%nat.
Proof.
  induction n as [|n IH]; intros i out res Hn; rewrite decode_loop_eq.
  - rewrite decide_False by lia. intros [= <-]. exists [].
    rewrite app_nil_r. split; [reflexivity|].
    replace (length thaiRunes - i)%nat with 0%nat by lia. reflexivity.
  - destruct (decide (i + 2 < length thaiRunes)%nat) as [Hi|Hi].
    + destruct (thaiIndex !! (thaiRunes !!! i)) as [d0|]; [|discriminate].
      destruct (thaiIndex !! (thaiRunes !!! (i + 1)%nat)) as [d1|]; [|discriminate].
      destruct (thaiIndex !! (thaiRunes !!! (i + 2)%nat)) as [d2|]; [|discriminate].
      cbv zeta. destruct (decide _) as [Hv|Hv]; [discriminate|].
      intros Hrec. apply IH in Hrec as (bs & -> & Hbs); [|lia].
      eexists. rewrite <- app_assoc. split; [reflexivity|].
      simpl length. rewrite Hbs.
      replace (length thaiRunes - i)%nat
        with (1 * 3 + (length thaiRunes - (i + 3)))%nat by lia.
      rewrite Nat.div_add_l by lia. lia.
    + intros [= <-]. exists []. rewrite app_nil_r. split; [reflexivity|].
      rewrite Nat.div_small by lia. reflexivity.
Qed.


(** ** Splitting the working sequence *)

Lemma decode_runes_groups (runes : list rune) :
  decode_runes runes
  = if decide (length runes = 0%nat) then ([], None)
    else decode_groups (primary_group runes) (padding_pair runes)
           (trailingBuginese runes).
Proof. reflexivity. Qed.

Lemma trailingBuginese_cases (runes : list rune) :
  trailingBuginese runes = 0%nat
  \/ (trailingBuginese runes = 2%nat /\ (2 <= length runes)%nat).
Proof.
  unfold trailingBuginese.
  destruct (bool_decide (2 <= length runes)%nat) eqn:E; [|left; reflexivity].
  apply bool_decide_eq_true in E.
  simpl andb.
  destruct (isBuginese (runes !!! (length runes - 1)%nat)
            && isBuginese (runes !!! (length runes - 2)%nat))%bool.
  - right. split; [reflexivity|exact E].
  - left. reflexivity.
Qed.

Lemma split_pair (pre : list rune) (p q : rune) :
  isBuginese p = true -> isBuginese q = true ->
  trailingBuginese (pre ++ [p; q]) = 2%nat
  /\ primary_group (pre ++ [p; q]) = pre
  /\ padding_pair (pre ++ [p; q]) = [p; q].
Proof.
  intros Hp Hq. unfold primary_group, padding_pair.
  rewrite trailingBuginese_snoc2, Hp, Hq. simpl andb. cbv iota.
  rewrite length_app. simpl length.
  replace (length pre + 2 - 2)%nat with (length pre) by lia.
  rewrite take_app_length, drop_app_length. auto.
Qed.

Lemma split_none (runes : list rune) :
  trailingBuginese runes = 0%nat ->
  primary_group runes = runes /\ padding_pair runes = [].
Proof.
  intros H. unfold primary_group, padding_pair. rewrite H, Nat.sub_0_r.
  rewrite firstn_all, drop_all. auto.
Qed.

Lemma trailingBuginese_not_pair (pre : list rune) (p q : rune) :
  isBuginese p = false \/ isBuginese q = false ->
  trailingBuginese (pre ++ [p; q]) = 0%nat.
Proof.
  intros H. rewrite trailingBuginese_snoc2.
  destruct H as [-> | ->]; [reflexivity|]. rewrite andb_false_r. reflexivity.
Qed.


(** ** Properties of the codec *)

Lemma unpairs_app (ps ps' : list (byte * byte)) :
  unpairs (ps ++ ps') = unpairs ps ++ unpairs ps'.
Proof. unfold unpairs. apply bind_app. Qed.

Lemma length_to_pairs (l : list byte) :
  length l = (2 * length (to_pairs l).1 + length (odd_bytes (to_pairs l).2))%nat.
Proof.
  rewrite (to_pairs_spec l) at 1. rewrite length_app, length_unpairs. reflexivity.
Qed.

Lemma to_pairs_even (l : list byte) :
  Nat.Even (length l) -> l = unpairs (to_pairs l).1.
Proof.
  intros [k Hk]. pose proof (length_to_pairs l) as Hl.
  rewrite (to_pairs_spec l) at 1.
  destruct (to_pairs l).2; simpl in *; [lia|]. apply app_nil_r.
Qed.

Lemma to_pairs_odd (l : list byte) :
  Nat.Odd (length l) -> exists b, l = unpairs (to_pairs l).1 ++ [b].
Proof.
  intros [k Hk]. pose proof (length_to_pairs l) as Hl.
  pose proof (to_pairs_spec l) as Hs.
  destruct (to_pairs l).2 as [b|]; simpl in *; [eauto|lia].
Qed.

Lemma Encode_unpairs (ps : list (byte * byte)) :
  Encode (unpairs ps) = ps ≫= encode_pair.
Proof.
  pose proof (Encode_pairs ps None) as H. simpl in H.
  rewrite !app_nil_r in H. exact H.
Qed.

Lemma Encode_app_even (pre rest : list byte) :
  Nat.Even (length pre) -> Encode (pre ++ rest) = Encode pre ++ Encode rest.
Proof.
  intros Hpre. rewrite (to_pairs_even pre Hpre). rewrite (to_pairs_spec rest).
  set (ps := (to_pairs pre).1). set (ps' := (to_pairs rest).1).
  set (tl := (to_pairs rest).2).
  rewrite app_assoc, <- unpairs_app, !Encode_pairs, Encode_unpairs.
  rewrite bind_app, <- app_assoc. reflexivity.
Qed.

(** C8: the Primary Alphabet has exactly 48 pairwise-distinct code points,
    the 47 consecutive ones from [thaiStart] followed by [thaiBaht], which
    lies outside that run; the Padding Alphabet has exactly the 16
    consecutive code points from [bugineseStart]; and no code point
    belongs to both alphabets. *)
Theorem C8_alphabets :
  length ThaiAlphabet = 48%nat
  /\ NoDup ThaiAlphabet
  /\ ThaiAlphabet
     = ((fun k : nat => thaiStart + Z.of_nat k) <$> seq 0 47) ++ [thaiBaht]
  /\ ~ (thaiStart <= thaiBaht < thaiStart + 47)
  /\ length BugineseAlphabet = 16%nat
  /\ BugineseAlphabet = (fun k : nat => bugineseStart + Z.of_nat k) <$> seq 0 16
  /\ (forall r : rune, ~ (r ∈ ThaiAlphabet /\ r ∈ BugineseAlphabet))
  /\ (forall r : rune, ~ (isThai r = true /\ isBuginese r = true)).
Proof.
  split; [exact ThaiAlphabet_length|].
  split; [exact ThaiAlphabet_NoDup|].
  split; [exact ThaiAlphabet_eq|].
  split; [unfold thaiStart, thaiBaht; lia|].
  split; [exact BugineseAlphabet_length|].
  split; [exact BugineseAlphabet_eq|].
  split.
  - intros r [Ht Hb]. apply isThai_spec in Ht. apply isBuginese_spec in Hb.
    exact (alphabets_disjoint r Ht Hb).
  - intros r [Ht Hb]. exact (alphabets_disjoint r Ht Hb).
Qed.

(** C2: for every byte pair [(b0, b1)] that [Encode] consumes (a pair
    starting at an even offset), the encoder forms [v = b0 * 256 + b1] and
    writes exactly the three Primary Alphabet code points at the indices
    [d0], [d1], [d2] with [v = d0*48*48 + d1*48 + d2], most significant
    first, each digit strictly below 48. *)
Theorem C2_encode_pair (pre rest : list byte) (b0 b1 : byte) :
  Nat.Even (length pre) ->
  let v := uint_of_byte b0 * 256 + uint_of_byte b1 in
  Z.lor (wrap_uint (Z.shiftl (uint_of_byte b0) 8)) (uint_of_byte b1) = v
  /\ exists (d0 d1 d2 : Z) (c0 c1 c2 : rune),
       0 <= d0 < 48 /\ 0 <= d1 < 48 /\ 0 <= d2 < 48
       /\ v = d0 * 48 * 48 + d1 * 48 + d2
       /\ ThaiAlphabet !! Z.to_nat d0 = Some c0
       /\ ThaiAlphabet !! Z.to_nat d1 = Some c1
       /\ ThaiAlphabet !! Z.to_nat d2 = Some c2
       /\ Encode (pre ++ b0 :: b1 :: rest)
          = Encode pre ++ [c0; c1; c2] ++ Encode rest.
Proof.
  intros Hpre v. split; [apply big_endian_pair|].
  destruct (pair_digits_range (b0, b1)) as (H0 & H1 & H2).
  simpl fst in *. simpl snd in *. fold v in H0, H1, H2. unfold Base in *.
  exists (digit0 v), (digit1 v), (digit2 v).
  exists (ThaiAlphabet !!! Z.to_nat (digit0 v)),
         (ThaiAlphabet !!! Z.to_nat (digit1 v)),
         (ThaiAlphabet !!! Z.to_nat (digit2 v)).
  repeat (split; [assumption|]).
  split; [exact (digits_value v)|].
  repeat (split; [apply ThaiAlphabet_total; assumption|]).
  rewrite (Encode_app_even pre _ Hpre). f_equal.
  change (b0 :: b1 :: rest) with ([b0; b1] ++ rest).
  rewrite (Encode_app_even [b0; b1] rest) by (exists 1%nat; reflexivity).
  f_equal. exact (Encode_unpairs [(b0, b1)]).
Qed.

Lemma C2_encode_pair_witness :
  Nat.Even (length [x12; x34])
  /\ exists (d0 d1 d2 : Z) (c0 c1 c2 : rune),
       0 <= d0 < 48 /\ 0 <= d1 < 48 /\ 0 <= d2 < 48
       /\ uint_of_byte xde * 256 + uint_of_byte xad = d0 * 48 * 48 + d1 * 48 + d2
       /\ ThaiAlphabet !! Z.to_nat d0 = Some c0
       /\ ThaiAlphabet !! Z.to_nat d1 = Some c1
       /\ ThaiAlphabet !! Z.to_nat d2 = Some c2
       /\ Encode ([x12; x34] ++ xde :: xad :: [xff])
          = Encode [x12; x34] ++ [c0; c1; c2] ++ Encode [xff].
Proof.
  assert (He : Nat.Even (length [x12; x34])) by (exists 1%nat; reflexivity).
  split; [exact He|].
  exact (proj2 (C2_encode_pair [x12; x34] [xff] xde xad He)).
Defined.

(** C3: an even-length input of [n] bytes is encoded as exactly
    [(n/2)*3] code points, all of the Primary Alphabet; an odd-length
    input of [n] bytes as exactly [((n-1)/2)*3 + 2] code points, of which
    the last two are the Padding Alphabet members at the indices
    [b >> 4] and [b & 0xF] of the trailing byte [b], in that order, and
    all earlier ones are Primary Alphabet members. *)
Theorem C3_fixed_expansion (data : list byte) :
  let n := length data in
  (Nat.Even n ->
     length (Encode data) = (n / 2 * 3)%nat
     /\ Forall (fun r => isThai r = true) (Encode data))
  /\ (Nat.Odd n ->
     length (Encode data) = ((n - 1) / 2 * 3 + 2)%nat
     /\ exists (front : list byte) (b : byte) (thai : gostring) (chi clo : rune),
          data = front ++ [b]
          /\ Encode data = thai ++ [chi; clo]
          /\ Forall (fun r => isThai r = true) thai
          /\ BugineseAlphabet !! Z.to_nat (Z.shiftr (uint_of_byte b) 4) = Some chi
          /\ BugineseAlphabet !! Z.to_nat (Z.land (uint_of_byte b) 0xF) = Some clo
          /\ isBuginese chi = true /\ isBuginese clo = true).
Proof.
  intros n. subst n. split; intros Hn.
  - pose proof (to_pairs_even data Hn) as Hd.
    set (ps := (to_pairs data).1) in *.
    assert (HE : Encode data = ps ≫= encode_pair)
      by (rewrite Hd; apply Encode_unpairs).
    rewrite HE, length_encode_pairs. split; [|apply encode_pairs_isThai].
    rewrite Hd, length_unpairs, (Nat.mul_comm 2), Nat.div_mul by lia. lia.
  - destruct (to_pairs_odd data Hn) as [b Hd].
    set (ps := (to_pairs data).1) in *.
    pose proof (Encode_pairs ps (Some b)) as He. simpl in He. rewrite <- Hd in He.
    destruct (nibbles_range b) as [Hhi Hlo].
    split.
    + rewrite He, length_app, length_encode_pairs. simpl length.
      rewrite Hd, length_app, length_unpairs. simpl length.
      replace (2 * length ps + 1 - 1)%nat with (length ps * 2)%nat by lia.
      rewrite Nat.div_mul by lia. lia.
    + exists (unpairs ps), b, (ps ≫= encode_pair).
      exists (bugineseStart + Z.shiftr (uint_of_byte b) 4),
             (bugineseStart + Z.land (uint_of_byte b) 0xF).
      split; [exact Hd|]. split; [rewrite He, encode_tail_eq; reflexivity|].
      split; [apply encode_pairs_isThai|].
      split; [rewrite <- BugineseAlphabet_total by (unfold PadBase; lia);
              apply list_lookup_lookup_total_lt;
              rewrite BugineseAlphabet_length; lia|].
      split; [rewrite <- BugineseAlphabet_total by (unfold PadBase; lia);
              apply list_lookup_lookup_total_lt;
              rewrite BugineseAlphabet_length; lia|].
      split; apply isBuginese_offset; unfold PadBase; lia.
Qed.

Lemma C3_fixed_expansion_witness :
  (length (Encode [x00; x01; x02; x03]) = (4 / 2 * 3)%nat
   /\ Forall (fun r => isThai r = true) (Encode [x00; x01; x02; x03]))
  /\ length (Encode [x00; x01; xa7]) = ((3 - 1) / 2 * 3 + 2)%nat.
Proof.
  split.
  - apply (proj1 (C3_fixed_expansion [x00; x01; x02; x03])).
    exists 2%nat. reflexivity.
  - apply (proj2 (C3_fixed_expansion [x00; x01; xa7])).
    exists 1%nat. reflexivity.
Defined.

Lemma encode_pairs_last_thai (ps : list (byte * byte)) :
  length (ps ≫= encode_pair) <> 0%nat ->
  trailingBuginese (ps ≫= encode_pair) = 0%nat.
Proof.
  intros Hne. pose proof (length_encode_pairs ps) as Hlen.
  destruct (list_snoc2 (ps ≫= encode_pair)) as (pre & p & q & Hpq); [lia|].
  rewrite Hpq. apply trailingBuginese_not_pair. right.
  pose proof (encode_pairs_isThai ps) as Hall. rewrite Hpq in Hall.
  apply Forall_app in Hall as [_ Hall].
  apply Forall_cons in Hall as [_ Hall]. apply Forall_cons in Hall as [Hq _].
  destruct (isBuginese q) eqn:E; [|reflexivity].
  exfalso. exact (alphabets_disjoint q Hq E).
Qed.

Lemma Encode_no_space (data : list byte) :
  Forall (fun r => is_space r = false) (Encode data).
Proof.
  rewrite Encode_to_pairs. apply Forall_app. split.
  - eapply Forall_impl; [apply encode_pairs_isThai|]. apply isThai_not_space.
  - destruct (to_pairs data).2 as [b|]; [|constructor]. simpl.
    rewrite encode_tail_eq. destruct (nibbles_range b).
    repeat constructor; apply isBuginese_not_space, isBuginese_offset;
      unfold PadBase; lia.
Qed.

(** Every code point [Encode] writes is a scalar value of the Basic
    Multilingual Plane outside the surrogate range, so [WriteRune] stores
    it unchanged and ranging over the string yields it back. *)
Lemma Encode_runes_valid_scalar (data : list byte) :
  Forall (fun r => 0x0800 <= r < 0xD800) (Encode data).
Proof.
  rewrite Encode_to_pairs. apply Forall_app. split.
  - eapply Forall_impl; [apply encode_pairs_isThai|]. intros r Hr.
    cbv beta in Hr |- *. apply isThai_spec in Hr.
    apply list_elem_of_lookup in Hr as [d Hd].
    apply ThaiAlphabet_range in Hd. unfold thaiStart, thaiBaht in Hd. lia.
  - destruct (to_pairs data).2 as [b|]; [|constructor]. simpl.
    rewrite encode_tail_eq. destruct (nibbles_range b).
    unfold bugineseStart. repeat constructor; lia.
Qed.

(** C1: decoding the encoding of any byte sequence gives the sequence
    back, with no error. *)
Theorem C1_round_trip (b : list byte) : Decode (Encode b) = (b, None).
Proof.
  rewrite Decode_eq, (collect_runes_id _ (Encode_no_space b)).
  rewrite Encode_to_pairs. rewrite (to_pairs_spec b) at 3.
  set (ps := (to_pairs b).1). destruct (to_pairs b).2 as [t|]; simpl.
  - (* odd length: two trailing padding code points *)
    rewrite encode_tail_eq. destruct (nibbles_range t) as [Hhi Hlo].
    set (p := bugineseStart + Z.shiftr (uint_of_byte t) 4).
    set (q := bugineseStart + Z.land (uint_of_byte t) 15).
    assert (Hp : isBuginese p = true) by (apply isBuginese_offset; unfold PadBase; lia).
    assert (Hq : isBuginese q = true) by (apply isBuginese_offset; unfold PadBase; lia).
    destruct (split_pair (ps ≫= encode_pair) p q Hp Hq) as (Htb & Hprim & Hpad).
    rewrite decode_runes_groups, decide_False by (rewrite length_app; simpl; lia).
    rewrite Htb, Hprim, Hpad. unfold decode_groups.
    rewrite length_encode_pairs.
    rewrite decide_False
      by (intros Hm; apply Hm; rewrite Nat.mul_comm; apply Nat.Div0.mod_mul).
    pose proof (decode_loop_encoded ps [] []) as Hloop. simpl in Hloop.
    rewrite Hloop. rewrite decide_True by reflexivity. cbv zeta.
    change ([p; q] !!! 0%nat) with p. change ([p; q] !!! 1%nat) with q.
    destruct (padding_nibble p Hp) as [Ep Hpr].
    destruct (padding_nibble q Hq) as [Eq Hqr].
    rewrite Ep, Eq.
    rewrite (bool_decide_eq_false_2 (p - bugineseStart > 15)) by lia.
    rewrite (bool_decide_eq_false_2 (q - bugineseStart > 15)) by lia.
    simpl orb. cbv iota.
    replace (p - bugineseStart) with (Z.shiftr (uint_of_byte t) 4) by (subst p; lia).
    replace (q - bugineseStart) with (Z.land (uint_of_byte t) 15) by (subst q; lia).
    rewrite (nibble_byte t). reflexivity.
  - (* even length: Primary code points only *)
    rewrite !app_nil_r. rewrite decode_runes_groups.
    destruct (decide (length (ps ≫= encode_pair) = 0%nat)) as [Hz|Hnz].
    + rewrite length_encode_pairs in Hz. destruct ps; [reflexivity|simpl in Hz; lia].
    + pose proof (encode_pairs_last_thai ps Hnz) as Htb.
      destruct (split_none _ Htb) as [Hprim Hpad].
      rewrite Htb, Hprim, Hpad. unfold decode_groups.
      rewrite length_encode_pairs.
      rewrite decide_False
        by (intros Hm; apply Hm; rewrite Nat.mul_comm; apply Nat.Div0.mod_mul).
      pose proof (decode_loop_encoded ps [] []) as Hloop. simpl in Hloop.
      rewrite Hloop. rewrite decide_False by lia. reflexivity.
Qed.

Lemma whitespace_is_space (r : rune) : whitespace r <-> is_space r = true.
Proof.
  unfold whitespace, is_space. rewrite !orb_true_iff, !Z.eqb_eq. tauto.
Qed.

Lemma ws_insert_collect (t t' : gostring) :
  ws_insert t t' -> collect_runes t' [] = collect_runes t [].
Proof.
  induction 1 as [|r t t' _ IH|w t t' Hw _ IH]; [reflexivity| |].
  - rewrite !collect_runes_cons, IH. reflexivity.
  - apply whitespace_is_space in Hw. rewrite collect_runes_cons, Hw. exact IH.
Qed.

(** C4: inserting whitespace code points (space, tab, newline, carriage
    return) anywhere in a text does not change what [Decode] returns,
    bytes or error. *)
Theorem C4_whitespace_tolerance (t t' : gostring) :
  ws_insert t t' -> Decode t' = Decode t.
Proof.
  intros H. rewrite !Decode_eq, (ws_insert_collect t t' H). reflexivity.
Qed.

Lemma C4_whitespace_tolerance_witness :
  Decode [10; 0x0e01; 32; 0x0e01; 9; 0x0e02; 13] = Decode [0x0e01; 0x0e01; 0x0e02].
Proof.
  apply C4_whitespace_tolerance.
  apply ws_add; [right; right; left; reflexivity|].
  apply ws_keep. apply ws_add; [left; reflexivity|].
  apply ws_keep. apply ws_add; [right; left; reflexivity|].
  apply ws_keep. apply ws_add; [right; right; right; reflexivity|].
  apply ws_done.
Defined.

(** C10: on an input made of whitespace code points only, the empty
    string included, [Decode] returns the empty byte sequence and no
    error. *)
Theorem C10_whitespace_only (s : gostring) :
  Forall whitespace s -> Decode s = ([], None).
Proof.
  intros H. rewrite Decode_eq, collect_runes_spaces; [reflexivity|].
  eapply Forall_impl; [exact H|]. intros r Hr. apply whitespace_is_space, Hr.
Qed.

Lemma C10_whitespace_only_witness :
  Decode [32; 9; 10; 13; 32] = ([], None) /\ Decode [] = ([], None).
Proof.
  split; apply C10_whitespace_only.
  - repeat constructor; unfold whitespace; lia.
  - constructor.
Defined.

Lemma trailingBuginese_two (runes : list rune) :
  trailingBuginese runes = 2%nat ->
  exists pre p q, runes = pre ++ [p; q]
    /\ isBuginese p = true /\ isBuginese q = true.
Proof.
  intros H. destruct (trailingBuginese_cases runes) as [H0|[_ Hlen]]; [lia|].
  destruct (list_snoc2 runes Hlen) as (pre & p & q & ->).
  exists pre, p, q. split; [reflexivity|].
  rewrite trailingBuginese_snoc2 in H.
  destruct (isBuginese p), (isBuginese q); simpl in H; auto; discriminate.
Qed.

Lemma length_padding_pair (runes : list rune) :
  length (padding_pair runes) = trailingBuginese runes.
Proof.
  unfold padding_pair. rewrite length_drop.
  destruct (trailingBuginese_cases runes) as [->|[-> Hlen]]; lia.
Qed.

Lemma Decode_groups (s : gostring) :
  collect_runes s [] <> [] ->
  Decode s
  = decode_groups (primary_group (collect_runes s []))
      (padding_pair (collect_runes s []))
      (length (padding_pair (collect_runes s []))).
Proof.
  intros Hne. rewrite Decode_eq, decode_runes_groups, length_padding_pair.
  rewrite decide_False; [reflexivity|].
  intros H. apply Hne. destruct (collect_runes s []); [reflexivity|discriminate].
Qed.

(** Step 4 on a padding pair: never [InvalidPadding]. *)
Lemma decode_groups_pair (pre : list rune) (p q : rune) :
  isBuginese p = true -> isBuginese q = true ->
  decode_groups pre [p; q] 2
  = if decide ((length pre mod 3)%nat <> 0%nat)
    then ([], Some (InvalidLength (length pre)))
    else match decode_loop pre 0 [] with
         | inl e => ([], Some e)
         | inr out =>
             (out ++ [byte_of_Z (Z.lor (Z.shiftl (p - bugineseStart) 4)
                                       (q - bugineseStart))], None)
         end.
Proof.
  intros Hp Hq. unfold decode_groups.
  destruct (decide _); [reflexivity|].
  destruct (decode_loop pre 0 []) as [e|out]; [reflexivity|].
  rewrite decide_True by reflexivity. cbv zeta.
  change ([p; q] !!! 0%nat) with p. change ([p; q] !!! 1%nat) with q.
  destruct (padding_nibble p Hp) as [Ep Hpr].
  destruct (padding_nibble q Hq) as [Eq Hqr]. rewrite Ep, Eq.
  rewrite (bool_decide_eq_false_2 (p - bugineseStart > 15)) by lia.
  rewrite (bool_decide_eq_false_2 (q - bugineseStart > 15)) by lia.
  simpl orb. cbv iota. rewrite wrap_u8_small; [reflexivity|].
  rewrite Z.shiftl_mul_pow2 by lia. change (2 ^ 4) with 16. lia.
Qed.

(** C5: after whitespace filtering, the last two elements of the working
    sequence are the padding pair exactly when there are at least two
    elements and both are Padding Alphabet members; otherwise the whole
    working sequence is the primary group. A working sequence that ends
    in a single Padding character, not preceded by another one, keeps it
    in the primary group and [Decode] returns an error. *)
Theorem C5_trailing_padding (s : gostring) :
  let runes := collect_runes s [] in
  (runes <> [] ->
     Decode s = decode_groups (primary_group runes) (padding_pair runes)
                  (length (padding_pair runes)))
  /\ (forall pre p q,
        runes = pre ++ [p; q] -> isBuginese p = true -> isBuginese q = true ->
        primary_group runes = pre /\ padding_pair runes = [p; q])
  /\ ((length runes < 2)%nat
      \/ (exists pre p q, runes = pre ++ [p; q]
            /\ (isBuginese p = false \/ isBuginese q = false)) ->
      primary_group runes = runes /\ padding_pair runes = [])
  /\ (forall pre q,
        runes = pre ++ [q] -> isBuginese q = true ->
        pre = [] \/ (exists pre' p, pre = pre' ++ [p] /\ isBuginese p = false) ->
        primary_group runes = runes /\ padding_pair runes = []
        /\ exists e, Decode s = ([], Some e)).
Proof.
  intros runes. split; [apply Decode_groups|]. split; [|split].
  - intros pre p q -> Hp Hq. apply (split_pair pre p q Hp Hq).
  - intros [Hshort|(pre & p & q & -> & Hpq)]; apply split_none.
    + apply trailingBuginese_short, Hshort.
    + apply trailingBuginese_not_pair, Hpq.
  - intros pre q Hrunes Hq Hpre.
    assert (Htb : trailingBuginese runes = 0%nat).
    { rewrite Hrunes. destruct Hpre as [->|(pre' & p & -> & Hp)].
      - apply trailingBuginese_short. simpl. lia.
      - rewrite <- app_assoc. apply trailingBuginese_not_pair. left. exact Hp. }
    destruct (split_none runes Htb) as [Hprim Hpad].
    split; [exact Hprim|]. split; [exact Hpad|].
    assert (Hne : runes <> []) by (rewrite Hrunes; destruct pre; discriminate).
    rewrite (Decode_groups s Hne). fold runes. rewrite Hprim, Hpad.
    unfold decode_groups. destruct (decide _) as [Hm|Hm]; [eauto|].
    assert (Hm0 : (length runes mod 3 = 0)%nat) by lia.
    assert (Hlen : length runes = S (length pre))
      by (rewrite Hrunes, length_app; simpl; lia).
    assert (Hlast : thaiIndex !! (runes !!! (length runes - 1)%nat) = None).
    { replace (runes !!! (length runes - 1)%nat) with q.
      - apply isBuginese_not_indexed, Hq.
      - symmetry. apply list_lookup_total_correct. rewrite Hrunes.
        rewrite lookup_app_r by (rewrite length_app; simpl; lia).
        rewrite length_app. simpl length.
        replace (length pre + 1 - 1 - length pre)%nat with 0%nat by lia.
        reflexivity. }
    destruct (decode_loop_bad_last runes Hm0 Hlast (length runes) 0 [])
      as [e He]; [lia|reflexivity|lia|].
    rewrite He. eauto.
Qed.

Lemma C5_trailing_padding_witness :
  (primary_group (collect_runes [0x0e01; 32; 0x1a03; 0x1a0f] []) = [0x0e01]
   /\ padding_pair (collect_runes [0x0e01; 32; 0x1a03; 0x1a0f] []) = [0x1a03; 0x1a0f])
  /\ exists e, Decode [0x0e01; 0x0e02; 10; 0x1a00] = ([], Some e).
Proof.
  split.
  - apply (proj1 (proj2 (C5_trailing_padding [0x0e01; 32; 0x1a03; 0x1a0f]))
             [0x0e01] 0x1a03 0x1a0f); reflexivity.
  - apply (proj2 (proj2 (proj2 (C5_trailing_padding [0x0e01; 0x0e02; 10; 0x1a00])))
             [0x0e01; 0x0e02] 0x1a00); [reflexivity|reflexivity|].
    right. exists [0x0e01], 0x0e02. split; reflexivity.
Defined.

Lemma primary_group_nil : primary_group [] = [].
Proof. reflexivity. Qed.

(** [Decode] on a non-empty working sequence, by cases. *)
Lemma decode_groups_not_length (thaiRunes bugRunes : list rune) (tb : nat)
    (bs : list byte) (n : nat) :
  (length thaiRunes mod 3 = 0)%nat ->
  decode_groups thaiRunes bugRunes tb <> (bs, Some (InvalidLength n)).
Proof.
  intros Hm. unfold decode_groups. rewrite decide_False by lia.
  destruct (decode_loop thaiRunes 0 []) as [e|out] eqn:E.
  - apply (decode_loop_error_kind _ (length thaiRunes)) in E; [|lia].
    intros [= _ ->]. exact E.
  - destruct (decide _); [|discriminate].
    cbv zeta. destruct (_ || _)%bool; discriminate.
Qed.

(** C6: [Decode] fails with [InvalidLength], reporting the count, exactly
    when the length of the primary group (after whitespace stripping and
    removal of the padding pair) is not a multiple of 3; the byte slice
    returned with this error is nil. *)
Theorem C6_invalid_length (s : gostring) (bs : list byte) (n : nat) :
  let thai := primary_group (collect_runes s []) in
  Decode s = (bs, Some (InvalidLength n))
  <-> ((length thai mod 3)%nat <> 0%nat /\ n = length thai /\ bs = []).
Proof.
  intros thai. subst thai. rewrite Decode_eq, decode_runes_groups.
  destruct (decide (length (collect_runes s []) = 0%nat)) as [Hz|Hnz].
  - destruct (collect_runes s []); [|discriminate]. rewrite primary_group_nil.
    simpl. split; [discriminate|]. intros [H _]. lia.
  - destruct (decide ((length (primary_group (collect_runes s [])) mod 3)%nat
                      = 0%nat)) as [Hm|Hm].
    + split; [|intros [H _]; lia].
      intros H. exfalso. revert H. apply decode_groups_not_length, Hm.
    + unfold decode_groups. rewrite decide_True by exact Hm. split.
      * intros [= <- <-]. auto.
      * intros (_ & -> & ->). reflexivity.
Qed.








(** C9: [Decode] never returns [InvalidPadding]: a padding pair selected
    in Step 2 consists of two code points of the padding range, whose
    nibbles are in 0..15, and the byte appended for it is
    [(high_nibble << 4) | low_nibble]. *)
Theorem C9_invalid_padding_unreachable (s : gostring) :
  (forall bs, Decode s <> (bs, Some InvalidPadding))
  /\ (forall pre p q out,
        collect_runes s [] = pre ++ [p; q] ->
        isBuginese p = true -> isBuginese q = true ->
        (length pre mod 3 = 0)%nat -> decode_loop pre 0 [] = inr out ->
        let hi := p - bugineseStart in
        let lo := q - bugineseStart in
        0 <= hi <= 15 /\ 0 <= lo <= 15
        /\ Decode s = (out ++ [byte_of_Z (Z.lor (Z.shiftl hi 4) lo)], None)).
Proof.
  split.
  - intros bs. rewrite Decode_eq, decode_runes_groups.
    destruct (decide _) as [Hz|Hnz]; [discriminate|].
    destruct (trailingBuginese_cases (collect_runes s [])) as [H0|[H2 _]].
    + rewrite H0. unfold decode_groups. destruct (decide _); [discriminate|].
      destruct (decode_loop _ 0 []) as [e|out] eqn:E; [|discriminate].
      apply (decode_loop_error_kind _ (length (primary_group (collect_runes s []))))
        in E; [|lia].
      intros [= _ ->]. exact E.
    + destruct (trailingBuginese_two _ H2) as (pre & p & q & Hr & Hp & Hq).
      rewrite Hr. destruct (split_pair pre p q Hp Hq) as (-> & -> & ->).
      rewrite (decode_groups_pair pre p q Hp Hq).
      destruct (decide _); [discriminate|].
      destruct (decode_loop pre 0 []) as [e|out] eqn:E; [|discriminate].
      apply (decode_loop_error_kind _ (length pre)) in E; [|lia].
      intros [= _ ->]. exact E.
  - intros pre p q out Hr Hp Hq Hm Hloop hi lo. subst hi lo.
    destruct (padding_nibble p Hp) as [_ Hpr].
    destruct (padding_nibble q Hq) as [_ Hqr].
    split; [exact Hpr|]. split; [exact Hqr|].
    rewrite Decode_eq, decode_runes_groups, Hr.
    rewrite decide_False by (rewrite length_app; simpl; lia).
    destruct (split_pair pre p q Hp Hq) as (-> & -> & ->).
    rewrite (decode_groups_pair pre p q Hp Hq).
    rewrite decide_False by lia. rewrite Hloop. reflexivity.
Qed.

Lemma C9_invalid_padding_unreachable_witness :
  0 <= 0x1a0a - bugineseStart <= 15 /\ 0 <= 0x1a07 - bugineseStart <= 15
  /\ Decode [0x0e01; 0x0e01; 0x0e02; 0x1a0a; 0x1a07]
     = ([x00; x01] ++ [byte_of_Z (Z.lor (Z.shiftl (0x1a0a - bugineseStart) 4)
                                        (0x1a07 - bugineseStart))], None).
Proof.
  destruct (C9_invalid_padding_unreachable
              [0x0e01; 0x0e01; 0x0e02; 0x1a0a; 0x1a07]) as [_ H].
  apply (H [0x0e01; 0x0e01; 0x0e02] 0x1a0a 0x1a07 [x00; x01]);
    vm_compute; reflexivity.
Defined.

(** ** Further properties: the tables *)

(** [thaiIndex] is the inverse of [ThaiAlphabet]: the digit stored for a
    code point is its position in the alphabet, and every position is
    found back. *)
Theorem thaiIndex_inverse :
  (forall (r : rune) (d : nat),
     thaiIndex !! r = Some d -> (d < 48)%nat /\ ThaiAlphabet !! d = Some r)
  /\ (forall d : nat,
        (d < 48)%nat -> thaiIndex !! (ThaiAlphabet !!! d) = Some d).
Proof.
  split.
  - intros r d H. split; [exact (thaiIndex_bound r d H)|].
    apply thaiIndex_lookup, H.
  - intros d Hd. apply thaiIndex_lookup, list_lookup_lookup_total_lt.
    rewrite ThaiAlphabet_length. exact Hd.
Qed.

Lemma thaiIndex_inverse_witness :
  thaiIndex !! (ThaiAlphabet !!! 47%nat) = Some 47%nat.
Proof. apply (proj2 thaiIndex_inverse). lia. Defined.

(** The digit of a code point in closed form: the offset from
    [thaiStart] on the run U+0E01..U+0E2F, 47 for U+0E3F, and no entry for
    any other code point. *)
Theorem thaiIndex_closed_form (r : rune) :
  thaiIndex !! r
  = if decide (thaiStart <= r <= thaiEnd) then Some (Z.to_nat (r - thaiStart))
    else if decide (r = thaiBaht) then Some 47%nat
    else None.
Proof.
  destruct (decide (thaiStart <= r <= thaiEnd)) as [Hrun|Hrun].
  - apply thaiIndex_lookup. unfold thaiStart, thaiEnd in *.
    rewrite ThaiAlphabet_lookup by lia. f_equal. unfold thaiStart. lia.
  - destruct (decide (r = thaiBaht)) as [->|Hb].
    + apply thaiIndex_lookup, ThaiAlphabet_lookup_last.
    + apply thaiIndex_None. intros Hin.
      apply list_elem_of_lookup in Hin as [d Hd].
      assert (Hlt := lookup_lt_Some _ _ _ Hd). rewrite ThaiAlphabet_length in Hlt.
      destruct (decide (d < 47)%nat) as [Hd47|Hd47].
      * rewrite ThaiAlphabet_lookup in Hd by lia. injection Hd as <-.
        apply Hrun. unfold thaiStart, thaiEnd. lia.
      * replace d with 47%nat in Hd by lia.
        rewrite ThaiAlphabet_lookup_last in Hd. injection Hd as <-.
        apply Hb. reflexivity.
Qed.

(** [isThai], which looks the code point up in [thaiIndex], accepts
    exactly the members of [ThaiAlphabet], that is U+0E01..U+0E2F and
    U+0E3F. *)
Theorem isThai_range (r : rune) :
  (isThai r = true <-> r ∈ ThaiAlphabet)
  /\ (isThai r = true <-> 0x0e01 <= r <= 0x0e2f \/ r = 0x0e3f).
Proof.
  split; [apply isThai_spec|]. rewrite isThai_spec. split.
  - intros Hin. apply list_elem_of_lookup in Hin as [d Hd].
    assert (Hlt := lookup_lt_Some _ _ _ Hd). rewrite ThaiAlphabet_length in Hlt.
    destruct (decide (d < 47)%nat) as [Hd47|Hd47].
    + rewrite ThaiAlphabet_lookup in Hd by lia. injection Hd as <-.
      left. unfold thaiStart. lia.
    + replace d with 47%nat in Hd by lia.
      rewrite ThaiAlphabet_lookup_last in Hd. injection Hd as <-.
      right. reflexivity.
  - intros [Hr| ->]; apply list_elem_of_lookup.
    + exists (Z.to_nat (r - thaiStart)). unfold thaiStart.
      rewrite ThaiAlphabet_lookup by lia. f_equal. unfold thaiStart. lia.
    + exists 47%nat. apply ThaiAlphabet_lookup_last.
Qed.

(** The range test of [isBuginese] agrees with the table that [init]
    fills: it accepts exactly the members of [BugineseAlphabet], and the
    member at index [k] is [bugineseStart + k]. *)
Theorem isBuginese_table (r : rune) :
  isBuginese r = true
  <-> exists k : nat, (k < 16)%nat /\ r = bugineseStart + Z.of_nat k
        /\ BugineseAlphabet !! k = Some r.
Proof.
  split.
  - intros H. apply isBuginese_spec, list_elem_of_lookup in H as [k Hk].
    assert (Hlt := lookup_lt_Some _ _ _ Hk). rewrite BugineseAlphabet_length in Hlt.
    exists k. split; [exact Hlt|]. split; [|exact Hk].
    rewrite BugineseAlphabet_lookup in Hk by lia. injection Hk as <-. reflexivity.
  - intros (k & _ & _ & Hk). apply isBuginese_spec, list_elem_of_lookup. eauto.
Qed.

(** ** Further properties: [Encode] *)

Lemma length_Encode (data : list byte) :
  length (Encode data)
  = (3 * (length data / 2) + 2 * (length data mod 2))%nat.
Proof.
  rewrite Encode_to_pairs, length_app, length_encode_pairs.
  rewrite (length_to_pairs data).
  set (ps := (to_pairs data).1). destruct (to_pairs data).2 as [b|]; simpl length.
  - replace (2 * length ps + 1)%nat with (1 + length ps * 2)%nat by lia.
    rewrite Nat.div_add, Nat.Div0.mod_add by lia. simpl. lia.
  - replace (2 * length ps + 0)%nat with (0 + length ps * 2)%nat by lia.
    rewrite Nat.div_add, Nat.Div0.mod_add by lia. simpl. lia.
Qed.

(** [Encode] returns the empty string for the empty input only. *)
Theorem Encode_empty_iff (data : list byte) : Encode data = [] <-> data = [].
Proof.
  split; [|intros ->; reflexivity].
  intros H. apply (f_equal length) in H. rewrite length_Encode in H.
  simpl length in H. pose proof (Nat.div_mod_eq (length data) 2) as Hdm.
  apply nil_length_inv. lia.
Qed.

(** Every code point [Encode] writes is a Basic Multilingual Plane scalar
    value in U+0800..U+D7FF: never whitespace, never a surrogate, never
    U+FFFD, and three bytes long in UTF-8. *)
Theorem Encode_valid_runes (data : list byte) :
  Forall (fun r => 0x0800 <= r < 0xD800 /\ r <> 0xFFFD /\ is_space r = false)
    (Encode data).
Proof.
  pose proof (Encode_runes_valid_scalar data) as H1.
  pose proof (Encode_no_space data) as H2.
  induction H1 as [|r l Hr _ IH]; [constructor|].
  apply Forall_cons in H2 as [Hs H2].
  constructor; [|exact (IH H2)]. split; [exact Hr|]. split; [lia|exact Hs].
Qed.

(** The builder reservation [sb.Grow(len(data)*5 + 6)] covers the output:
    at three UTF-8 bytes per code point, the encoding never needs more. *)
Theorem Encode_within_reservation (data : list byte) :
  (3 * length (Encode data) <= length data * 5 + 6)%nat.
Proof.
  rewrite length_Encode.
  pose proof (Nat.div_mod_eq (length data) 2) as Hdm.
  pose proof (Nat.mod_upper_bound (length data) 2). lia.
Qed.

(** ** Further properties: [Decode] *)

Lemma mod3_encode_pairs (ps : list (byte * byte)) :
  (length (ps ≫= encode_pair) mod 3 = 0)%nat.
Proof. rewrite length_encode_pairs, Nat.mul_comm. apply Nat.Div0.mod_mul. Qed.

Lemma tail_byte (hi lo : Z) :
  0 <= hi <= 15 -> 0 <= lo <= 15 ->
  encode_tail (byte_of_Z (Z.lor (Z.shiftl hi 4) lo))
  = [bugineseStart + hi; bugineseStart + lo].
Proof.
  intros Hhi Hlo. rewrite encode_tail_eq, uint_of_byte_of_Z.
  rewrite lor_shiftl_add by (change (2 ^ 4) with 16; lia). change (2 ^ 4) with 16.
  rewrite wrap_u8_small by lia.
  rewrite Z.shiftr_div_pow2 by lia. change (2 ^ 4) with 16.
  change 0x0f with (Z.ones 4). rewrite Z.land_ones by lia. change (2 ^ 4) with 16.
  replace ((hi * 16 + lo) / 16) with hi
    by (apply Z.div_unique with lo; lia).
  replace ((hi * 16 + lo) mod 16) with lo
    by (apply Z.mod_unique with hi; lia).
  reflexivity.
Qed.

(** [decode_runes] on the text written for the pairs [ps] and the
    optional last byte [tl]. *)
Lemma decode_runes_encoded (ps : list (byte * byte)) (tl : option byte) :
  decode_runes ((ps ≫= encode_pair) ++ from_option encode_tail [] tl)
  = (unpairs ps ++ odd_bytes tl, None).
Proof.
  pose proof (decode_loop_encoded ps [] []) as Hloop. simpl in Hloop.
  rewrite decode_runes_groups. destruct tl as [t|]; simpl from_option; simpl odd_bytes.
  - rewrite encode_tail_eq. destruct (nibbles_range t) as [Hhi Hlo].
    set (hi := Z.shiftr (uint_of_byte t) 4) in *.
    set (lo := Z.land (uint_of_byte t) 15) in *.
    assert (Hp : isBuginese (bugineseStart + hi) = true)
      by (apply isBuginese_offset; unfold PadBase; lia).
    assert (Hq : isBuginese (bugineseStart + lo) = true)
      by (apply isBuginese_offset; unfold PadBase; lia).
    rewrite decide_False by (rewrite length_app; simpl; lia).
    destruct (split_pair (ps ≫= encode_pair) _ _ Hp Hq) as (-> & -> & ->).
    rewrite (decode_groups_pair _ _ _ Hp Hq).
    rewrite decide_False by (pose proof (mod3_encode_pairs ps); lia).
    rewrite Hloop. do 3 f_equal.
    replace (bugineseStart + hi - bugineseStart) with hi by lia.
    replace (bugineseStart + lo - bugineseStart) with lo by lia.
    pose proof (nibble_byte t) as Hb. cbv zeta in Hb. fold hi lo in Hb.
    rewrite wrap_u8_small in Hb; [exact Hb|].
    rewrite Z.shiftl_mul_pow2 by lia. change (2 ^ 4) with 16. lia.
  - rewrite !app_nil_r.
    destruct (decide (length (ps ≫= encode_pair) = 0%nat)) as [Hz|Hnz].
    + rewrite length_encode_pairs in Hz. destruct ps; [reflexivity|simpl in Hz; lia].
    + pose proof (encode_pairs_last_thai ps Hnz) as Htb.
      destruct (split_none _ Htb) as [Hprim Hpad].
      rewrite Htb, Hprim, Hpad. unfold decode_groups.
      rewrite decide_False by (pose proof (mod3_encode_pairs ps); lia).
      rewrite Hloop, decide_False by lia. reflexivity.
Qed.

Lemma decode_runes_Encode (data : list byte) :
  decode_runes (Encode data) = (data, None).
Proof.
  rewrite Encode_to_pairs, decode_runes_encoded. f_equal.
  symmetry. apply to_pairs_spec.
Qed.

(** [Encode] is injective: different byte sequences have different
    encodings. *)
Theorem Encode_injective (a b : list byte) : Encode a = Encode b -> a = b.
Proof.
  intros H. pose proof (decode_runes_Encode a) as Ha.
  rewrite H, decode_runes_Encode in Ha. congruence.
Qed.

Lemma Encode_injective_witness : [x01; x02] = [x01; x02].
Proof. apply Encode_injective. reflexivity. Defined.

Lemma decode_runes_error_nil (runes : list rune) (bs : list byte) (e : DecodeError) :
  decode_runes runes = (bs, Some e) -> bs = [].
Proof.
  rewrite decode_runes_groups.
  destruct (decide _); [discriminate|]. unfold decode_groups.
  destruct (decide _); [intros [= <- _]; reflexivity|].
  destruct (decode_loop _ 0 []) as [e'|out]; [intros [= <- _]; reflexivity|].
  destruct (decide _); [|discriminate].
  cbv zeta. destruct (_ || _)%bool; [intros [= <- _]; reflexivity|discriminate].
Qed.

(** Decoding is all-or-nothing: whenever [Decode] returns an error, the
    byte slice it returns with it is nil, whatever had been decoded
    before the faulty position. *)
Theorem Decode_error_no_bytes (s : gostring) (bs : list byte) (e : DecodeError) :
  Decode s = (bs, Some e) -> bs = [].
Proof. rewrite Decode_eq. apply decode_runes_error_nil. Qed.

Lemma Decode_error_no_bytes_witness : @nil byte = [].
Proof.
  apply (Decode_error_no_bytes [88; 89; 90] [] (InvalidCharacter 88 0)).
  vm_compute. reflexivity.
Defined.

(** The two bytes appended for an in-range triplet value carry exactly
    that value. *)
Lemma triplet_pair (v : Z) :
  0 <= v <= 0xFFFF ->
  pair_value (byte_of_Z (Z.shiftr v 8)) (byte_of_Z (Z.land v 0xFF)) = v.
Proof.
  intros Hv. unfold pair_value. rewrite !uint_of_byte_of_Z.
  rewrite Z.shiftr_div_pow2 by lia. change 0xFF with (Z.ones 8).
  rewrite Z.land_ones by lia. change (2 ^ 8) with 256.
  pose proof (Z.mod_pos_bound v 256 eq_refl).
  assert (0 <= v / 256 < 256)
    by (split; [apply Z.div_pos; lia|apply Z.div_lt_upper_bound; lia]).
  rewrite !wrap_u8_small by lia.
  pose proof (Z.div_mod v 256). lia.
Qed.

Lemma thaiIndex_total (r : rune) (d : nat) :
  thaiIndex !! r = Some d -> ThaiAlphabet !!! d = r.
Proof. intros H. apply list_lookup_total_correct, thaiIndex_lookup, H. Qed.

(** A successful run of the triplet loop only reads what the pair loop of
    [Encode] writes: the code points from [i] on are the encoding of the
    bytes appended. *)
Lemma decode_loop_canonical (thaiRunes : list rune) :
  (length thaiRunes mod 3 = 0)%nat ->
  forall (n i : nat) (acc out : list byte),
  (length thaiRunes - i <= n)%nat -> (i mod 3 = 0)%nat ->
  decode_loop thaiRunes i acc = inr out ->
  exists ps, out = acc ++ unpairs ps /\ drop i thaiRunes = ps ≫= encode_pair.
Proof.
  intros Hlen. induction n as [|n IH]; intros i acc out Hn Hi3; rewrite decode_loop_eq.
  - rewrite decide_False by lia. intros [= <-]. exists [].
    rewrite app_nil_r, drop_ge by lia. split; reflexivity.
  - destruct (decide (i + 2 < length thaiRunes)%nat) as [Hi|Hi].
    + destruct (thaiIndex !! (thaiRunes !!! i)) as [d0|] eqn:E0; [|discriminate].
      destruct (thaiIndex !! (thaiRunes !!! (i + 1)%nat)) as [d1|] eqn:E1; [|discriminate].
      destruct (thaiIndex !! (thaiRunes !!! (i + 2)%nat)) as [d2|] eqn:E2; [|discriminate].
      cbv zeta.
      pose proof (thaiIndex_bound _ _ E0) as B0.
      pose proof (thaiIndex_bound _ _ E1) as B1.
      pose proof (thaiIndex_bound _ _ E2) as B2.
      rewrite triplet_value_nowrap by assumption.
      set (v := Z.of_nat d0 * Base * Base + Z.of_nat d1 * Base + Z.of_nat d2).
      destruct (decide (v > 65535)) as [Hv|Hv]; [discriminate|].
      intros Hrec. apply IH in Hrec as (ps & -> & Hdrop); [|lia|].
      2: { rewrite <- Nat.Div0.add_mod_idemp_l, Hi3. reflexivity. }
      exists ((byte_of_Z (Z.shiftr v 8), byte_of_Z (Z.land v 255)) :: ps).
      split; [rewrite unpairs_cons, <- app_assoc; reflexivity|].
      change ((?p :: ps) ≫= encode_pair) with (encode_pair p ++ (ps ≫= encode_pair)).
      rewrite <- Hdrop. unfold encode_pair. simpl fst. simpl snd.
      assert (Hv0 : 0 <= v <= 65535) by (subst v; unfold Base in *; lia).
      rewrite (triplet_pair v Hv0).
      destruct (digits_unique (Z.of_nat d0) (Z.of_nat d1) (Z.of_nat d2))
        as (D0 & D1 & D2); [unfold Base; lia..|].
      fold v in D0, D1, D2. rewrite D0, D1, D2, !Nat2Z.id.
      rewrite (thaiIndex_total _ _ E0), (thaiIndex_total _ _ E1),
        (thaiIndex_total _ _ E2).
      rewrite (drop_S thaiRunes (thaiRunes !!! i) i)
        by (apply list_lookup_lookup_total_lt; lia).
      rewrite (drop_S thaiRunes (thaiRunes !!! (i + 1)%nat) (S i)).
      2: { replace (S i) with (i + 1)%nat by lia.
           apply list_lookup_lookup_total_lt; lia. }
      rewrite (drop_S thaiRunes (thaiRunes !!! (i + 2)%nat) (S (S i))).
      2: { replace (S (S i)) with (i + 2)%nat by lia.
           apply list_lookup_lookup_total_lt; lia. }
      replace (S (S (S i))) with (i + 3)%nat by lia. reflexivity.
    + intros [= <-]. exists []. rewrite app_nil_r. split; [reflexivity|].
      apply drop_ge.
      apply Nat.Div0.mod_divides in Hlen as [a Ha].
      apply Nat.Div0.mod_divides in Hi3 as [b Hb]. lia.
Qed.

Lemma Encode_nil : Encode [] = [].
Proof. exact (Encode_pairs [] None). Qed.

(** Whatever working sequence [decode_runes] accepts is the encoding of
    the bytes it returns. *)
Lemma decode_runes_canonical (runes : list rune) (bs : list byte) :
  decode_runes runes = (bs, None) -> runes = Encode bs.
Proof.
  rewrite decode_runes_groups.
  destruct (decide (length runes = 0%nat)) as [Hz|Hnz].
  - intros [= <-]. destruct runes; [|discriminate Hz]. symmetry. apply Encode_nil.
  - destruct (trailingBuginese_cases runes) as [Htb|[Htb _]].
    + destruct (split_none runes Htb) as [Hprim Hpad]. rewrite Htb, Hprim, Hpad.
      unfold decode_groups.
      destruct (decide (length runes mod 3 <> 0)%nat) as [Hm|Hm]; [discriminate|].
      destruct (decode_loop runes 0 []) as [e|out] eqn:E; [discriminate|].
      rewrite decide_False by lia. intros [= ->].
      apply (decode_loop_canonical runes) with (n := length runes) in E
        as (ps & -> & Hdrop); [|lia..|reflexivity].
      rewrite drop_0 in Hdrop. simpl.
      pose proof (Encode_pairs ps None) as HE. simpl in HE.
      rewrite !app_nil_r in HE. rewrite HE. exact Hdrop.
    + destruct (trailingBuginese_two runes Htb) as (pre & p & q & -> & Hp & Hq).
      destruct (split_pair pre p q Hp Hq) as (-> & -> & ->).
      rewrite (decode_groups_pair pre p q Hp Hq).
      destruct (decide (length pre mod 3 <> 0)%nat) as [Hm|Hm]; [discriminate|].
      destruct (decode_loop pre 0 []) as [e|out] eqn:E; [discriminate|].
      intros [= <-].
      apply (decode_loop_canonical pre) with (n := length pre) in E
        as (ps & -> & Hdrop); [|lia..|reflexivity].
      rewrite drop_0 in Hdrop. simpl.
      pose proof (Encode_pairs ps
                    (Some (byte_of_Z (Z.lor (Z.shiftl (p - bugineseStart) 4)
                                            (q - bugineseStart))))) as HE.
      simpl in HE. rewrite HE, <- Hdrop. f_equal.
      destruct (padding_nibble p Hp) as [_ Rp].
      destruct (padding_nibble q Hq) as [_ Rq].
      rewrite tail_byte by lia. f_equal; [lia|f_equal; lia].
Qed.

(** [Decode] accepts exactly the encodings, up to whitespace: it returns
    the bytes [bs] without error if and only if the input, once its
    whitespace is removed, is [Encode bs]. In particular every accepted
    text has one canonical form, and encoding the decoded bytes gives the
    input back without its whitespace. *)
Theorem Decode_accepts_encodings (s : gostring) (bs : list byte) :
  Decode s = (bs, None) <-> collect_runes s [] = Encode bs.
Proof.
  rewrite Decode_eq. split.
  - apply decode_runes_canonical.
  - intros ->. apply decode_runes_Encode.
Qed.

(** The result of a successful [Decode] has exactly the length reserved
    by [make([]byte, 0, (len(thaiRunes)/3)*2+trailingBuginese/2)]: the
    appends never outgrow the allocation and no reserved byte is left
    unused. *)
Theorem Decode_fills_capacity (s : gostring) (bs : list byte) :
  Decode s = (bs, None) ->
  length bs
  = (length (primary_group (collect_runes s [])) / 3 * 2
     + trailingBuginese (collect_runes s []) / 2)%nat.
Proof.
  rewrite Decode_eq, decode_runes_groups.
  destruct (decide (length (collect_runes s []) = 0%nat)) as [Hz|Hnz].
  - intros [= <-]. destruct (collect_runes s []); [reflexivity|discriminate Hz].
  - unfold decode_groups. destruct (decide _) as [Hm|Hm]; [discriminate|].
    destruct (decode_loop _ 0 []) as [e|out] eqn:E; [discriminate|].
    apply (decode_loop_length _ (length (primary_group (collect_runes s []))))
      in E as (res & -> & Hres); [|lia].
    rewrite Nat.sub_0_r in Hres. simpl app.
    destruct (decide (trailingBuginese (collect_runes s []) = 2%nat)) as [Htb|Htb].
    + cbv zeta. destruct (_ || _)%bool; [discriminate|]. intros [= <-].
      rewrite length_app, Hres, Htb. simpl. lia.
    + intros [= <-]. rewrite Hres.
      destruct (trailingBuginese_cases (collect_runes s [])) as [->|[H2 _]];
        [simpl; lia|contradiction].
Qed.

Lemma Decode_fills_capacity_witness :
  length [xde; xad; xbe]
  = (length (primary_group (collect_runes (Encode [xde; xad; xbe]) [])) / 3 * 2
     + trailingBuginese (collect_runes (Encode [xde; xad; xbe]) []) / 2)%nat.
Proof. apply Decode_fills_capacity. vm_compute. reflexivity. Defined.

(** ** Further properties: the errors of [Decode] *)

Lemma isThai_indexed (r : rune) (d : nat) : thaiIndex !! r = Some d -> isThai r = true.
Proof. unfold isThai. intros ->. reflexivity. Qed.

Lemma isThai_unindexed (r : rune) : thaiIndex !! r = None -> isThai r = false.
Proof. unfold isThai. intros ->. reflexivity. Qed.

(** What the error of the triplet loop says about the primary group; the
    code points before [i] have been accepted by earlier iterations. *)
Lemma decode_loop_error_report (thaiRunes : list rune) :
  forall (n i : nat) (acc : list byte) (e : DecodeError),
  (length thaiRunes - i <= n)%nat ->
  (i mod 3 = 0)%nat ->
  Forall (fun x => isThai x = true) (take i thaiRunes) ->
  decode_loop thaiRunes i acc = inl e ->
  match e with
  | InvalidCharacter r pos =>
      thaiRunes !! pos = Some r /\ isThai r = false
      /\ Forall (fun x => isThai x = true) (take pos thaiRunes)
  | ValueOutOfRange v pos =>
      (pos mod 3 = 0)%nat /\ (pos + 2 < length thaiRunes)%nat
      /\ exists d0 d1 d2 : nat,
           ThaiAlphabet !! d0 = Some (thaiRunes !!! pos)
           /\ ThaiAlphabet !! d1 = Some (thaiRunes !!! (pos + 1)%nat)
           /\ ThaiAlphabet !! d2 = Some (thaiRunes !!! (pos + 2)%nat)
           /\ v = Z.of_nat d0 * 48 * 48 + Z.of_nat d1 * 48 + Z.of_nat d2
           /\ 65535 < v <= 110591
  | InvalidLength _ | InvalidPadding => False
  end.
Proof.
  induction n as [|n IH]; intros i acc e Hn Hi3 Hpre; rewrite decode_loop_eq.
  - rewrite decide_False by lia. discriminate.
  - destruct (decide (i + 2 < length thaiRunes)%nat) as [Hi|Hi]; [|discriminate].
    assert (L0 : thaiRunes !! i = Some (thaiRunes !!! i))
      by (apply list_lookup_lookup_total_lt; lia).
    assert (L1 : thaiRunes !! (i + 1)%nat = Some (thaiRunes !!! (i + 1)%nat))
      by (apply list_lookup_lookup_total_lt; lia).
    assert (L2 : thaiRunes !! (i + 2)%nat = Some (thaiRunes !!! (i + 2)%nat))
      by (apply list_lookup_lookup_total_lt; lia).
    destruct (thaiIndex !! (thaiRunes !!! i)) as [d0|] eqn:E0.
    2: { intros [= <-]. split; [exact L0|]. split; [|exact Hpre].
         apply isThai_unindexed, E0. }
    assert (Hpre1 : Forall (fun x => isThai x = true) (take (i + 1) thaiRunes)).
    { replace (i + 1)%nat with (S i) by lia.
      rewrite (take_S_r _ _ _ L0). apply Forall_app. split; [exact Hpre|].
      constructor; [|constructor]. apply (isThai_indexed _ _ E0). }
    destruct (thaiIndex !! (thaiRunes !!! (i + 1)%nat)) as [d1|] eqn:E1.
    2: { intros [= <-]. split; [exact L1|]. split; [|exact Hpre1].
         apply isThai_unindexed, E1. }
    assert (Hpre2 : Forall (fun x => isThai x = true) (take (i + 2) thaiRunes)).
    { replace (take (i + 2) thaiRunes) with (take (S (i + 1)) thaiRunes)
        by (f_equal; lia).
      rewrite (take_S_r _ _ _ L1). apply Forall_app. split; [exact Hpre1|].
      constructor; [|constructor]. apply (isThai_indexed _ _ E1). }
    destruct (thaiIndex !! (thaiRunes !!! (i + 2)%nat)) as [d2|] eqn:E2.
    2: { intros [= <-]. split; [exact L2|]. split; [|exact Hpre2].
         apply isThai_unindexed, E2. }
    assert (Hpre3 : Forall (fun x => isThai x = true) (take (i + 3) thaiRunes)).
    { replace (take (i + 3) thaiRunes) with (take (S (i + 2)) thaiRunes)
        by (f_equal; lia).
      rewrite (take_S_r _ _ _ L2). apply Forall_app. split; [exact Hpre2|].
      constructor; [|constructor]. apply (isThai_indexed _ _ E2). }
    cbv zeta.
    pose proof (thaiIndex_bound _ _ E0) as B0.
    pose proof (thaiIndex_bound _ _ E1) as B1.
    pose proof (thaiIndex_bound _ _ E2) as B2.
    rewrite triplet_value_nowrap by assumption.
    destruct (decide _) as [Hv|Hv].
    + intros [= <-]. split; [exact Hi3|]. split; [exact Hi|].
      exists d0, d1, d2. rewrite <- !thaiIndex_lookup.
      unfold Base in *. repeat split; try assumption; lia.
    + apply IH; [lia| |exact Hpre3].
      rewrite <- Nat.Div0.add_mod_idemp_l, Hi3. reflexivity.
Qed.

Lemma decode_runes_loop_error (runes : list rune) (bs : list byte) (e : DecodeError) :
  decode_runes runes = (bs, Some e) -> is_loop_error e ->
  decode_loop (primary_group runes) 0 [] = inl e.
Proof.
  rewrite decode_runes_groups.
  destruct (decide _); [discriminate|]. unfold decode_groups.
  destruct (decide _); [intros [= _ <-] []|].
  destruct (decode_loop _ 0 []) as [e'|out]; [intros [= _ <-] _; reflexivity|].
  destruct (decide _); [|discriminate].
  cbv zeta. destruct (_ || _)%bool; [intros [= _ <-] []|discriminate].
Qed.

(** An invalid-character error is exact: the position it reports is an
    index into the primary group (whitespace is not counted), the code
    point reported is the one found there, it is not in the Primary
    Alphabet, and every code point before it is. *)
Theorem Decode_invalid_character (s : gostring) (bs : list byte)
    (r : rune) (pos : nat) :
  Decode s = (bs, Some (InvalidCharacter r pos)) ->
  let thai := primary_group (collect_runes s []) in
  thai !! pos = Some r /\ isThai r = false
  /\ Forall (fun x => isThai x = true) (take pos thai).
Proof.
  rewrite Decode_eq. intros H thai.
  apply decode_runes_loop_error in H; [|exact I].
  apply (decode_loop_error_report thai (length thai)) in H;
    [exact H|lia|reflexivity|constructor].
Qed.

Lemma Decode_invalid_character_witness :
  let thai := primary_group (collect_runes [0x0e01; 32; 0x0e02; 88] []) in
  thai !! 2%nat = Some 88 /\ isThai 88 = false
  /\ Forall (fun x => isThai x = true) (take 2 thai).
Proof.
  apply (Decode_invalid_character [0x0e01; 32; 0x0e02; 88] []).
  vm_compute. reflexivity.
Defined.

(** An out-of-range error is exact: it is reported at the first position
    of a triplet of the primary group, whose three code points are
    Primary Alphabet members at indices [d0], [d1], [d2]; the value
    reported is [d0*48*48 + d1*48 + d2], above 65535 and at most
    110591. *)
Theorem Decode_value_out_of_range (s : gostring) (bs : list byte)
    (v : Z) (pos : nat) :
  Decode s = (bs, Some (ValueOutOfRange v pos)) ->
  let thai := primary_group (collect_runes s []) in
  (pos mod 3 = 0)%nat /\ (pos + 2 < length thai)%nat
  /\ exists d0 d1 d2 : nat,
       ThaiAlphabet !! d0 = Some (thai !!! pos)
       /\ ThaiAlphabet !! d1 = Some (thai !!! (pos + 1)%nat)
       /\ ThaiAlphabet !! d2 = Some (thai !!! (pos + 2)%nat)
       /\ v = Z.of_nat d0 * 48 * 48 + Z.of_nat d1 * 48 + Z.of_nat d2
       /\ 65535 < v <= 110591.
Proof.
  rewrite Decode_eq. intros H thai.
  apply decode_runes_loop_error in H; [|exact I].
  apply (decode_loop_error_report thai (length thai)) in H;
    [exact H|lia|reflexivity|constructor].
Qed.

Lemma Decode_value_out_of_range_witness :
  let thai := primary_group (collect_runes [0x0e3f; 0x0e01; 0x0e01] []) in
  (0 mod 3 = 0)%nat /\ (0 + 2 < length thai)%nat
  /\ exists d0 d1 d2 : nat,
       ThaiAlphabet !! d0 = Some (thai !!! 0%nat)
       /\ ThaiAlphabet !! d1 = Some (thai !!! (0 + 1)%nat)
       /\ ThaiAlphabet !! d2 = Some (thai !!! (0 + 2)%nat)
       /\ 108288 = Z.of_nat d0 * 48 * 48 + Z.of_nat d1 * 48 + Z.of_nat d2
       /\ 65535 < 108288 <= 110591.
Proof.
  apply (Decode_value_out_of_range [0x0e3f; 0x0e01; 0x0e01] []).
  vm_compute. reflexivity.
Defined.

(** ** Further properties: texts derived from an encoding *)

Lemma isThai_not_isBuginese (r : rune) : isThai r = true -> isBuginese r = false.
Proof.
  intros H. destruct (isBuginese r) eqn:E; [|reflexivity].
  exfalso. exact (alphabets_disjoint r H E).
Qed.

Lemma take_encode_pairs (ps : list (byte * byte)) (a : nat) :
  take (3 * a) (ps ≫= encode_pair) = take a ps ≫= encode_pair.
Proof.
  revert a. induction ps as [|p ps IH]; intros [|a]; try reflexivity.
  change ((p :: ps) ≫= encode_pair) with (encode_pair p ++ (ps ≫= encode_pair)).
  change (take (S a) (p :: ps) ≫= encode_pair)
    with (encode_pair p ++ (take a ps ≫= encode_pair)).
  replace (3 * S a)%nat with (3 + 3 * a)%nat by lia.
  rewrite take_app_add' by reflexivity. rewrite IH. reflexivity.
Qed.

Lemma unpairs_take (ps : list (byte * byte)) (a : nat) :
  unpairs (take a ps) = take (2 * a) (unpairs ps).
Proof.
  revert a. induction ps as [|p ps IH]; intros [|a]; try reflexivity.
  change (take (S a) (p :: ps)) with (p :: take a ps).
  rewrite !unpairs_cons, IH.
  replace (2 * S a)%nat with (2 + 2 * a)%nat by lia. reflexivity.
Qed.

Lemma length_encode_tail_opt (tl : option byte) :
  length (from_option encode_tail [] tl) = (2 * length (odd_bytes tl))%nat.
Proof. destruct tl; reflexivity. Qed.

Lemma encode_pairs_lookup_isThai (ps : list (byte * byte)) (tail : list rune) (j : nat) :
  (j < 3 * length ps)%nat ->
  isThai (((ps ≫= encode_pair) ++ tail) !!! j) = true.
Proof.
  intros Hj. rewrite lookup_total_app_l by (rewrite length_encode_pairs; exact Hj).
  apply (Forall_lookup_total_1 (fun r => isThai r = true));
    [apply encode_pairs_isThai|rewrite length_encode_pairs; exact Hj].
Qed.

(** [decode_runes] on a proper prefix of an encoding. *)
Lemma decode_runes_take (ps : list (byte * byte)) (tl : option byte) (k : nat) :
  (k < length ((ps ≫= encode_pair) ++ from_option encode_tail [] tl))%nat ->
  decode_runes (take k ((ps ≫= encode_pair) ++ from_option encode_tail [] tl))
  = if decide (k mod 3 = 0)%nat
    then (take (k / 3 * 2) (unpairs ps ++ odd_bytes tl), None)
    else ([], Some (InvalidLength k)).
Proof.
  rewrite length_app, length_encode_pairs, length_encode_tail_opt.
  pose proof (length_odd_bytes tl) as Htl. intros Hk.
  destruct (decide (k mod 3 = 0)%nat) as [Hm|Hm].
  - apply Nat.Div0.mod_divides in Hm as [a ->].
    replace (3 * a / 3)%nat with a by (rewrite Nat.mul_comm, Nat.div_mul; lia).
    rewrite take_app_le by (rewrite length_encode_pairs; lia).
    rewrite take_encode_pairs.
    pose proof (decode_runes_encoded (take a ps) None) as H. simpl in H.
    rewrite !app_nil_r in H. rewrite H.
    rewrite take_app_le by (rewrite length_unpairs; lia).
    rewrite unpairs_take. do 2 f_equal. lia.
  - set (E := (ps ≫= encode_pair) ++ from_option encode_tail [] tl).
    assert (HlenE : length E = (3 * length ps + 2 * length (odd_bytes tl))%nat)
      by (unfold E; rewrite length_app, length_encode_pairs, length_encode_tail_opt;
          reflexivity).
    assert (Hlen : length (take k E) = k) by (rewrite length_take; lia).
    assert (Hk0 : k <> 0%nat) by (intros ->; apply Hm; reflexivity).
    assert (Htb : trailingBuginese (take k E) = 0%nat).
    { unfold trailingBuginese. rewrite Hlen.
      destruct (bool_decide (2 <= k)%nat) eqn:E2; [|reflexivity].
      apply bool_decide_eq_true in E2. simpl andb.
      rewrite !lookup_total_take, !decide_True by lia.
      destruct (decide (k - 1 < 3 * length ps)%nat) as [Hlt|Hge].
      - unfold E. rewrite (isThai_not_isBuginese _ (encode_pairs_lookup_isThai _ _ _ Hlt)).
        reflexivity.
      - assert (Hlt : (k - 2 < 3 * length ps)%nat) by lia.
        unfold E. rewrite (isThai_not_isBuginese _ (encode_pairs_lookup_isThai _ _ _ Hlt)).
        rewrite andb_false_r. reflexivity. }
    rewrite decode_runes_groups, decide_False by lia.
    destruct (split_none _ Htb) as [-> ->]. rewrite Htb. unfold decode_groups.
    rewrite Hlen, decide_True by exact Hm. reflexivity.
Qed.

(** A truncated encoding: cutting [Encode data] after [k] code points
    gives a text that [Decode] rejects with [InvalidLength k], unless the
    cut falls on a triplet boundary, in which case the text decodes
    without error to the first [k/3*2] bytes of [data]. *)
Theorem Decode_truncated (data : list byte) (k : nat) :
  (k < length (Encode data))%nat ->
  Decode (take k (Encode data))
  = if decide (k mod 3 = 0)%nat then (take (k / 3 * 2) data, None)
    else ([], Some (InvalidLength k)).
Proof.
  intros Hk. rewrite Decode_eq.
  rewrite collect_runes_id by (apply Forall_take, Encode_no_space).
  rewrite Encode_to_pairs in Hk |- *.
  rewrite (decode_runes_take _ _ _ Hk), <- to_pairs_spec. reflexivity.
Qed.

Lemma Decode_truncated_witness :
  Decode (take 2 (Encode [x42; x43]))
  = (if decide (2 mod 3 = 0)%nat then (take (2 / 3 * 2) [x42; x43], None)
     else ([], Some (InvalidLength 2)))
  /\ Decode (take 3 (Encode [x42; x43; x44]))
     = (if decide (3 mod 3 = 0)%nat then (take (3 / 3 * 2) [x42; x43; x44], None)
        else ([], Some (InvalidLength 3))).
Proof.
  split; apply Decode_truncated; vm_compute; lia.
Defined.

(** An encoding survives any insertion of whitespace: a text obtained
    from [Encode data] by adding spaces, tabs, newlines or carriage
    returns anywhere decodes to [data]. *)
Theorem Decode_whitespace_round_trip (data : list byte) (t : gostring) :
  ws_insert (Encode data) t -> Decode t = (data, None).
Proof.
  intros H. rewrite Decode_eq, (ws_insert_collect _ _ H).
  rewrite collect_runes_id by apply Encode_no_space.
  apply decode_runes_Encode.
Qed.

Lemma elem_of_collect_runes (s : gostring) (r : rune) :
  r ∈ s -> is_space r = false -> r ∈ collect_runes s [].
Proof.
  intros Hin Hr. induction s as [|x s IH]; [inversion Hin|].
  rewrite collect_runes_cons. apply elem_of_cons in Hin as [->|Hin].
  - rewrite Hr. apply elem_of_cons. left. reflexivity.
  - destruct (is_space x); [exact (IH Hin)|].
    apply elem_of_cons. right. exact (IH Hin).
Qed.

Lemma Encode_elem_alphabets (data : list byte) (r : rune) :
  r ∈ Encode data -> isThai r = true \/ isBuginese r = true.
Proof.
  rewrite Encode_to_pairs. intros [H|H]%elem_of_app.
  - left. revert r H. apply Forall_forall, encode_pairs_isThai.
  - right. destruct (to_pairs data).2 as [b|]; simpl in H; [|inversion H].
    rewrite encode_tail_eq in H. destruct (nibbles_range b).
    apply elem_of_cons in H as [->|H];
      [apply isBuginese_offset; unfold PadBase; lia|].
    apply elem_of_cons in H as [->|H];
      [apply isBuginese_offset; unfold PadBase; lia|inversion H].
Qed.

(** Any code point that is neither whitespace nor a member of one of the
    two alphabets, anywhere in the input, makes [Decode] fail. *)
Theorem Decode_rejects_foreign (s : gostring) (r : rune) :
  r ∈ s -> is_space r = false -> isThai r = false -> isBuginese r = false ->
  exists e, Decode s = ([], Some e).
Proof.
  intros Hin Hs Ht Hb. rewrite Decode_eq.
  destruct (decode_runes (collect_runes s [])) as [bs [e|]] eqn:E.
  - rewrite (decode_runes_error_nil _ _ _ E). eauto.
  - exfalso. apply decode_runes_canonical in E.
    pose proof (elem_of_collect_runes s r Hin Hs) as Hr. rewrite E in Hr.
    apply Encode_elem_alphabets in Hr as [Hr|Hr]; congruence.
Qed.

Lemma Decode_rejects_foreign_witness :
  exists e, Decode [0x0e01; 0x0e02; 0x0e03; 65; 0x0e01; 0x0e02] = ([], Some e).
Proof.
  apply (Decode_rejects_foreign _ 65); [|reflexivity..].
  do 3 apply list_elem_of_further. apply list_elem_of_here.
Defined.

Lemma Decode_whitespace_round_trip_witness :
  Decode [10; 3609; 32; 3620; 32; 3614; 32; 3606; 32; 3595; 32; 3600; 10]
  = ([xde; xad; xbe; xef], None).
Proof.
  apply Decode_whitespace_round_trip. vm_compute.
  repeat first [ apply ws_done | apply ws_keep
               | apply ws_add; [unfold whitespace; auto|] ].
Defined.

Lemma length_Encode_pos (data : list byte) :
  data <> [] -> (0 < length (Encode data))%nat.
Proof.
  intros Hne. rewrite length_Encode.
  pose proof (Nat.div_mod_eq (length data) 2) as Hdm.
  destruct data; [contradiction|]. simpl length in *. lia.
Qed.

(** After an odd number of bytes the encoding ends in a padding pair, and
    nothing may follow a padding pair in an encoding. *)
Lemma Encode_concat_odd (a b bs : list byte) :
  Nat.Odd (length a) -> b <> [] -> Encode a ++ Encode b <> Encode bs.
Proof.
  intros Ha Hb E.
  destruct (to_pairs_odd a Ha) as [t Ht].
  set (psa := (to_pairs a).1) in *.
  pose proof (Encode_pairs psa (Some t)) as HEa.
  simpl in HEa. rewrite <- Ht, encode_tail_eq in HEa.
  destruct (nibbles_range t) as [Hhi _].
  set (p := bugineseStart + Z.shiftr (uint_of_byte t) 4) in *.
  set (q := bugineseStart + Z.land (uint_of_byte t) 15) in *.
  assert (Hp : isBuginese p = true)
    by (apply isBuginese_offset; unfold PadBase; lia).
  assert (Hat : (Encode a ++ Encode b) !!! (3 * length psa)%nat = p).
  { rewrite HEa, <- app_assoc.
    pose proof (lookup_total_app_at (psa ≫= encode_pair)
                  ([p; q] ++ Encode b) 0 p eq_refl) as Hl.
    rewrite Nat.add_0_r, length_encode_pairs in Hl. exact Hl. }
  assert (HlenB : length (Encode bs)
                  = (3 * length (to_pairs bs).1
                     + 2 * length (odd_bytes (to_pairs bs).2))%nat)
    by (rewrite Encode_to_pairs, length_app, length_encode_pairs,
          length_encode_tail_opt; reflexivity).
  pose proof (f_equal length E) as Hlen.
  rewrite length_app, HEa, length_app, length_encode_pairs, HlenB in Hlen.
  simpl length in Hlen.
  pose proof (length_Encode_pos b Hb) as Hpos.
  rewrite E, Encode_to_pairs in Hat.
  pose proof (length_odd_bytes (to_pairs bs).2) as Htl.
  destruct (decide (3 * length psa < 3 * length (to_pairs bs).1)%nat)
    as [Hlt|Hge]; [|lia].
  pose proof (encode_pairs_lookup_isThai (to_pairs bs).1
                (from_option encode_tail [] (to_pairs bs).2) _ Hlt) as Hthai.
  rewrite Hat in Hthai. exact (alphabets_disjoint p Hthai Hp).
Qed.

(** [Encode] distributes over concatenation exactly at even offsets: the
    encoding of [pre ++ rest] is the encoding of [pre] followed by that
    of [rest] if and only if [pre] has an even number of bytes or [rest]
    is empty. *)
Theorem Encode_app (pre rest : list byte) :
  Encode (pre ++ rest) = Encode pre ++ Encode rest
  <-> Nat.Even (length pre) \/ rest = [].
Proof.
  split.
  - intros H. destruct (Nat.Even_or_Odd (length pre)) as [He|Ho]; [left; exact He|].
    right. destruct rest as [|x rest]; [reflexivity|].
    exfalso. symmetry in H. revert H. apply Encode_concat_odd; [exact Ho|discriminate].
  - intros [He| ->]; [apply Encode_app_even, He|].
    rewrite Encode_nil, !app_nil_r. reflexivity.
Qed.

(** Concatenating two encodings: [Encode a ++ Encode b] decodes to
    [a ++ b] when [a] has an even number of bytes (or [b] is empty), and
    is rejected when [a] has an odd number of bytes and [b] is not empty,
    because a padding pair may only end a text. *)
Theorem Decode_concat (a b : list byte) :
  (Nat.Even (length a) \/ b = [] ->
   Decode (Encode a ++ Encode b) = (a ++ b, None))
  /\ (Nat.Odd (length a) -> b <> [] ->
      exists e, Decode (Encode a ++ Encode b) = ([], Some e)).
Proof.
  assert (Hid : collect_runes (Encode a ++ Encode b) [] = Encode a ++ Encode b).
  { apply collect_runes_id, Forall_app. split; apply Encode_no_space. }
  rewrite Decode_eq, Hid. split.
  - intros [Ha| ->].
    + rewrite <- (Encode_app_even a b Ha). apply decode_runes_Encode.
    + rewrite Encode_nil, !app_nil_r. apply decode_runes_Encode.
  - intros Ha Hb.
    destruct (decode_runes (Encode a ++ Encode b)) as [bs [e|]] eqn:E.
    + rewrite (decode_runes_error_nil _ _ _ E). eauto.
    + exfalso. apply decode_runes_canonical in E.
      exact (Encode_concat_odd a b bs Ha Hb E).
Qed.

Lemma Decode_concat_witness :
  Decode (Encode [xde; xad] ++ Encode [xbe]) = ([xde; xad] ++ [xbe], None)
  /\ exists e, Decode (Encode [xbe] ++ Encode [xde; xad]) = ([], Some e).
Proof.
  split.
  - apply (proj1 (Decode_concat [xde; xad] [xbe])). left. exists 1%nat. reflexivity.
  - apply (proj2 (Decode_concat [xbe] [xde; xad])); [exists 0%nat; reflexivity|discriminate].
Defined.
